(** * Chatbot REST API: the conversations controller and its routes

    A shallow embedding of [app/Controllers/Http/ConversationsController.ts],
    [start/routes.ts], the [Conversation] model and the [conversations]
    migration.  Handlers are written in a reader/state/exception monad:
    the reader carries what the handlers cannot control (the UUID
    generator, the external chatbot, the clock, storage failures, how the
    database reads a value into a [jsonb] column), the state is the content
    of the two tables, and an exception is a thrown JavaScript error.

    Strings are sequences of bytes: a JavaScript string is held as its
    UTF-8 encoding. *)

From stdpp Require Import base option list strings gmap.
From Stdlib Require Import Ascii String ZArith.

Set Warnings "-register-all".
Open Scope string_scope.
Open Scope list_scope.

(** ** JavaScript values

    The body of the external response is typed [any] in the source; the
    controller only tests it for truthiness and reads one property. *)

Inductive JsVal : Type :=
  | JUndefined
  | JNull
  | JBool (b : bool)
  | JNum (n : Z)
  | JStr (s : string)
  | JArr (items : list JsVal)
  | JObj (fields : list (string * JsVal)).

(** [if (v)]: undefined, null, false, 0 and the empty string are falsy. *)
Definition truthy (v : JsVal) : bool :=
  match v with
  | JUndefined | JNull => false
  | JBool b => b
  | JNum n => negb (Z.eqb n 0)
  | JStr s => negb (String.eqb s "")
  | JArr _ | JObj _ => true
  end.

(** Own property of a parsed JSON object; a later duplicate key wins. *)
Fixpoint assoc_last (k : string) (fs : list (string * JsVal)) : option JsVal :=
  match fs with
  | [] => None
  | (k', v) :: fs' =>
      match assoc_last k fs' with
      | Some w => Some w
      | None => if String.eqb k' k then Some v else None
      end
  end.

(** [v.k] for a name [k] that no prototype defines (such as [message]):
    reading a property of undefined or null throws a TypeError ([None]);
    on the other primitives and on arrays it yields undefined. *)
Definition js_prop (v : JsVal) (k : string) : option JsVal :=
  match v with
  | JUndefined | JNull => None
  | JObj fs => Some (default JUndefined (assoc_last k fs))
  | _ => Some JUndefined
  end.

(** A value that may be missing, as JavaScript holds it. *)
Definition js_optional (o : option string) : JsVal :=
  match o with
  | Some s => JStr s
  | None => JUndefined
  end.

(** ** Strings: trimming, numerals, UUIDs, JSON texts *)

(** The white space and line terminators of ECMAScript, which
    [String.prototype.trim] removes, each as the bytes of its UTF-8
    encoding: U+0009 to U+000D, U+0020, U+00A0, U+1680, U+2000 to U+200A,
    U+2028, U+2029, U+202F, U+205F, U+3000 and U+FEFF. *)
Definition white_space : list (list nat) :=
  [ [9]; [10]; [11]; [12]; [13]; [32];
    [194; 160];
    [225; 154; 128];
    [226; 128; 128]; [226; 128; 129]; [226; 128; 130]; [226; 128; 131];
    [226; 128; 132]; [226; 128; 133]; [226; 128; 134]; [226; 128; 135];
    [226; 128; 136]; [226; 128; 137]; [226; 128; 138];
    [226; 128; 168]; [226; 128; 169];
    [226; 128; 175];
    [226; 129; 159];
    [227; 128; 128];
    [239; 187; 191] ].

Definition bytes (s : string) : list nat := nat_of_ascii <$> list_ascii_of_string s.

Definition of_bytes (l : list nat) : string :=
  string_of_list_ascii (ascii_of_nat <$> l).

(** [l] without the prefix [p], when it starts with it. *)
Fixpoint strip_prefix (p l : list nat) : option (list nat) :=
  match p, l with
  | [], _ => Some l
  | b :: p', c :: l' => if Nat.eqb b c then strip_prefix p' l' else None
  | _ :: _, [] => None
  end.

(** [l] without the first of [patterns] it starts with. *)
Fixpoint strip_one (patterns : list (list nat)) (l : list nat)
    : option (list nat) :=
  match patterns with
  | [] => None
  | p :: rest =>
      match strip_prefix p l with
      | Some l' => Some l'
      | None => strip_one rest l
      end
  end.

Fixpoint strip_all (fuel : nat) (patterns : list (list nat)) (l : list nat)
    : list nat :=
  match fuel with
  | 0 => l
  | S fuel' =>
      match strip_one patterns l with
      | Some l' => strip_all fuel' patterns l'
      | None => l
      end
  end.

Definition trim_start_bytes (l : list nat) : list nat :=
  strip_all (List.length l) white_space l.

(** At the end the encodings are matched backwards; UTF-8 is
    self-synchronising, so a match is a whole character. *)
Definition trim_end_bytes (l : list nat) : list nat :=
  rev (strip_all (List.length l) ((λ p, rev p) <$> white_space) (rev l)).

(** [String.prototype.trim] *)
Definition trim (s : string) : string :=
  of_bytes (trim_end_bytes (trim_start_bytes (bytes s))).

Definition is_digit (c : ascii) : bool :=
  let n := nat_of_ascii c in Nat.leb 48 n && Nat.leb n 57.

Definition is_hex (c : ascii) : bool :=
  let n := nat_of_ascii c in
  is_digit c || (Nat.leb 97 n && Nat.leb n 102) || (Nat.leb 65 n && Nat.leb n 70).

(** The white space of C's [isspace], which PostgreSQL skips around a
    number. *)
Definition is_blank (c : ascii) : bool :=
  let n := nat_of_ascii c in Nat.eqb n 32 || (Nat.leb 9 n && Nat.leb n 13).

Fixpoint skip_blanks (s : string) : string :=
  match s with
  | String c s' => if is_blank c then skip_blanks s' else s
  | EmptyString => EmptyString
  end.

(** The leading decimal digits of [s] as a number, and what follows. *)
Fixpoint leading_digits (acc : Z) (s : string) : Z * string :=
  match s with
  | String c s' =>
      if is_digit c
      then leading_digits (10 * acc + Z.of_nat (nat_of_ascii c - 48)) s'
      else (acc, s)
  | EmptyString => (acc, EmptyString)
  end.

(** How PostgreSQL reads a text as an [integer]: optional white space, an
    optional sign, decimal digits, optional white space.  (From version 16
    it also reads hexadecimal, octal and binary numerals and underscores
    between digits; those are refused here.) *)
Definition parse_int (s : string) : option Z :=
  let s1 := skip_blanks s in
  let '(negative, s2) :=
    match s1 with
    | String c r =>
        if Ascii.eqb c "-" then (true, r)
        else if Ascii.eqb c "+" then (false, r)
        else (false, s1)
    | EmptyString => (false, s1)
    end in
  match s2 with
  | String c _ =>
      if is_digit c then
        let '(n, rest) := leading_digits 0 s2 in
        match skip_blanks rest with
        | EmptyString => Some (if negative then (- n)%Z else n)
        | _ => None
        end
      else None
  | EmptyString => None
  end.

(** The range of a PostgreSQL [integer], the type of an [increments]
    column. *)
Definition int4_min : Z := (-2147483648)%Z.
Definition int4_max : Z := 2147483647%Z.

Definition in_int4 (z : Z) : bool := Z.leb int4_min z && Z.leb z int4_max.

Fixpoint all_digits (s : string) : bool :=
  match s with
  | String c s' => is_digit c && all_digits s'
  | EmptyString => true
  end.

(** A non-empty string of decimal digits that PostgreSQL reads as an
    [integer], as a number: the numeral of a primary id. *)
Definition parse_nat (s : string) : option nat :=
  match s with
  | EmptyString => None
  | _ =>
      if all_digits s then
        let z := (leading_digits 0 s).1 in
        if Z.leb z int4_max then Some (Z.to_nat z) else None
      else None
  end.

(** [n] hexadecimal digits followed by [k rest]. *)
Fixpoint hex_run (n : nat) (k : string → bool) (s : string) : bool :=
  match n with
  | 0 => k s
  | S n' =>
      match s with
      | String c s' => is_hex c && hex_run n' k s'
      | EmptyString => false
      end
  end.

Definition dash (k : string → bool) (s : string) : bool :=
  match s with
  | String c s' => Ascii.eqb c "-"%char && k s'
  | EmptyString => false
  end.

(** One character out of [allowed], followed by [k rest]. *)
Definition one_of (allowed : string) (k : string → bool) (s : string) : bool :=
  match s with
  | String c s' => existsb (Ascii.eqb c) (list_ascii_of_string allowed) && k s'
  | EmptyString => false
  end.

Definition at_end (s : string) : bool :=
  match s with EmptyString => true | _ => false end.

(** [/^[0-9a-f]{8}-[0-9a-f]{4}-[0-9a-f]{4}-[0-9a-f]{4}-[0-9a-f]{12}$/i.test(s)],
    the test of [getConversationMessages]. *)
Definition isUUID (s : string) : bool :=
  hex_run 8 (dash (hex_run 4 (dash (hex_run 4 (dash (hex_run 4
    (dash (hex_run 12 at_end)))))))) s.

(** The validator's [rules.uuid()], which without a version asks for
    version 4: the pattern
    [/^[0-9A-F]{8}-[0-9A-F]{4}-4[0-9A-F]{3}-[89AB][0-9A-F]{3}-[0-9A-F]{12}$/i]. *)
Definition isUUIDv4 (s : string) : bool :=
  hex_run 8 (dash (hex_run 4 (dash (one_of "4" (hex_run 3
    (dash (one_of "89abAB" (hex_run 3 (dash (hex_run 12 at_end)))))))))) s.

Definition lower (c : ascii) : ascii :=
  let n := nat_of_ascii c in
  if Nat.leb 65 n && Nat.leb n 90 then ascii_of_nat (n + 32) else c.

(** The thirty-two digits of a UUID as PostgreSQL reads one: two digits a
    byte, a dash allowed after every second byte but the last. *)
Fixpoint uuid_digits (remaining index : nat) (s : string)
    : option (list ascii * string) :=
  match remaining with
  | 0 => Some ([], s)
  | S remaining' =>
      match s with
      | String a (String b rest) =>
          if is_hex a && is_hex b then
            let rest' :=
              match rest with
              | String c after =>
                  if Ascii.eqb c "-" && Nat.odd index && Nat.ltb index 15
                  then after else rest
              | EmptyString => rest
              end in
            match uuid_digits remaining' (S index) rest' with
            | Some (ds, tail) => Some (lower a :: lower b :: ds, tail)
            | None => None
            end
          else None
      | _ => None
      end
  end.

(** The text PostgreSQL prints a UUID as: lower case, in groups of 8, 4,
    4, 4 and 12 digits. *)
Definition uuid_out (ds : list ascii) : string :=
  string_of_list_ascii
    (take 8 ds ++ "-"%char :: take 4 (drop 8 ds) ++ "-"%char ::
     take 4 (drop 12 ds) ++ "-"%char :: take 4 (drop 16 ds) ++ "-"%char ::
     drop 20 ds).

(** A text written to, or compared with, a [uuid] column: refused, or
    read as a value, here the text that value is printed as.  Braces
    around the digits are allowed. *)
Definition uuid_in (s : string) : option string :=
  let '(braces, digits) :=
    match s with
    | String c r => if Ascii.eqb c "{" then (true, r) else (false, s)
    | EmptyString => (false, s)
    end in
  match uuid_digits 16 0 digits with
  | Some (ds, tail) =>
      let tail' :=
        if braces then
          match tail with
          | String c t => if Ascii.eqb c "}" then Some t else None
          | EmptyString => None
          end
        else Some tail in
      match tail' with
      | Some EmptyString => Some (uuid_out ds)
      | _ => None
      end
  | None => None
  end.

(** White space of the JSON grammar. *)
Fixpoint skip_json_space (s : string) : string :=
  match s with
  | String c s' =>
      let n := nat_of_ascii c in
      if Nat.eqb n 32 || Nat.eqb n 9 || Nat.eqb n 10 || Nat.eqb n 13
      then skip_json_space s' else s
  | EmptyString => EmptyString
  end.

(** A JSON text starts, after white space, with the first character of a
    value: a brace, a bracket, a double quote, a minus sign, a digit, or
    the [t], [f] or [n] of a literal.  No other text is JSON. *)
Definition json_start (s : string) : bool :=
  match skip_json_space s with
  | String c _ =>
      let n := nat_of_ascii c in
      is_digit c
      || existsb (Nat.eqb n) [123; 91; 34; 45; 116; 102; 110]
  | EmptyString => false
  end.

(** ** The two tables *)

Inductive SenderType : Type := user | bot.

(** Modelled from the spec: the [Message] model ([App/Models/Message]) is
    imported by the controller but its declaration and its migration are
    not among the sources.  The specification gives a message an
    identifier, a sender type ([user] or [bot]), a text and a creation time
    stamp; the text is held as the value the controller assigned to it.
    The identifier is taken to be an [increments] column, as is the
    conversations' [messages_id], an [integer], that references it. *)
Module Message.
Record t : Type := mk {
  id : nat;
  senderType : SenderType;
  message : JsVal;
  createdAt : nat
}.
End Message.

(** [app/Models/Conversation.ts]; [null] columns are [None] and [JNull].
    [session_id] holds the text the [uuid] column prints, [lastMessages]
    the value the [jsonb] column holds. *)
Module Conversation.
Record t : Type := mk {
  id : nat;
  session_id : string;
  messagesId : option nat;
  lastMessages : JsVal;
  createdAt : nat;
  updatedAt : nat
}.
End Conversation.

(** The attributes the model declares, each with its column. *)
Definition Conversation_columns : list (string * string) :=
  [ ("id", "id"); ("session_id", "session_id"); ("messagesId", "messages_id");
    ("lastMessages", "last_messages"); ("createdAt", "created_at");
    ("updatedAt", "updated_at") ].

(** [@belongsTo(() => Message, { foreignKey: 'messages_id' })] *)
Definition lastMessage_foreignKey : string := "messages_id".

(** A write statement the database carried out, in the order they were
    sent. *)
Inductive SqlWrite : Type :=
  | InsertConversation (id : nat)
  | UpdateConversation (id : nat)
  | DeleteConversation (id : nat)
  | InsertMessage (id : nat)
  | DeleteMessage (id : nat).

Record Store : Type := mkStore {
  conversations : list Conversation.t;
  messages : list Message.t;
  next_conversation_id : nat;       (* the [increments] sequence *)
  next_message_id : nat;
  tick : nat;                       (* logical time: effects performed so far *)
  issued : list string;             (* UUIDs handed out by [uuidv4], oldest first *)
  journal : list SqlWrite           (* writes performed, oldest first *)
}.

(** ** Errors, the environment and the monad *)

Record FieldError : Type := mkFieldError {
  rule : string;
  field : string;
  reason : string
}.

(** A thrown value: the validator's exception carries [messages.errors];
    every other error only has a [message]. *)
Inductive JsError : Type :=
  | ValidationException (errors : list FieldError)
  | Error (message : string).

Definition error_message (e : JsError) : string :=
  match e with
  | ValidationException _ => "E_VALIDATION_FAILURE: Validation Exception"
  | Error m => m
  end.

(** Outcome of [axios.post]: the promise rejects (transport error, status
    outside 2xx) or resolves with the parsed body in [data]. *)
Inductive ApiOutcome : Type :=
  | Rejected (message : string)
  | Resolved (data : JsVal).

(** What the handlers cannot control, as functions of logical time where
    it may change.  [uuidv4()] returns a UUID in the form PostgreSQL prints
    one (lower case, five groups), so the text it returns is the text the
    [uuid] column gives back.  [env_jsonb] is how the driver and the
    database read a bound value into a [jsonb] column: refused, or stored
    as a value.  [env_message_nullable] is whether the unseen [messages]
    table accepts a row without a text. *)
Record Env : Type := mkEnv {
  env_uuid : nat → string;
  env_uuid_canonical : ∀ t, uuid_in (env_uuid t) = Some (env_uuid t);
  env_axios : nat → string → string → option string → ApiOutcome;
                              (* time, url, session_id, message *)
  env_fault : nat → option string;  (* a storage statement failing, with its message *)
  env_clock : nat → nat;
  env_jsonb : JsVal → option JsVal;
  env_message_nullable : bool
}.

Inductive Result (A : Type) : Type :=
  | Ok (a : A)
  | Throw (e : JsError).
Arguments Ok {A} a.
Arguments Throw {A} e.

Definition M (A : Type) : Type := Env → Store → Store * Result A.

Definition ret {A} (a : A) : M A := λ _ s, (s, Ok a).

Definition bind {A B} (m : M A) (k : A → M B) : M B :=
  λ E s,
    match m E s with
    | (s', Ok a) => k a E s'
    | (s', Throw e) => (s', Throw e)
    end.

Definition throw {A} (e : JsError) : M A := λ _ s, (s, Throw e).

(** [try { m } catch (e) { h e }]: what [m] wrote before throwing stays. *)
Definition try_catch {A} (m : M A) (h : JsError → M A) : M A :=
  λ E s,
    match m E s with
    | (s', Throw e) => h e E s'
    | r => r
    end.

Definition get_store : M Store := λ _ s, (s, Ok s).
Definition ask_env : M Env := λ E s, (s, Ok E).
Definition modify (f : Store → Store) : M unit := λ _ s, (f s, Ok tt).

#[global] Instance M_ret : MRet M := @ret.
#[global] Instance M_bind : MBind M := λ A B k m, bind m k.

(** One step of logical time. *)
Definition set_tick (n : nat) (s : Store) : Store :=
  mkStore (conversations s) (messages s) (next_conversation_id s)
    (next_message_id s) n (issued s) (journal s).

Definition next_tick : M nat :=
  s ← get_store;
  modify (set_tick (S (tick s)));;
  mret (tick s).

(** A statement reaching the database: it fails when the environment says
    so, and otherwise runs at the time of the clock. *)
Definition storage : M nat :=
  t ← next_tick;
  E ← ask_env;
  match env_fault E t with
  | Some msg => throw (Error msg)
  | None => mret (env_clock E t)
  end.

(** [uuidv4()] *)
Definition uuidv4 : M string :=
  t ← next_tick;
  E ← ask_env;
  let u := env_uuid E t in
  modify (λ s, mkStore (conversations s) (messages s) (next_conversation_id s)
                 (next_message_id s) (tick s) (issued s ++ [u]) (journal s));;
  mret u.

(** [axios.post(url, { session_id, message })] as a value: a rejection is
    caught by the caller's inner [try].  An undefined [message] is left out
    of the body sent. *)
Definition axios_post (url session_id : string) (message : option string)
    : M ApiOutcome :=
  t ← next_tick;
  E ← ask_env;
  mret (env_axios E t url session_id message).

(** ** The ORM calls the controller makes

    Rows are kept in insertion order, which is the order an unordered
    [SELECT] is taken to return them in. *)

Definition set_tables (cs : list Conversation.t) (ms : list Message.t)
    (w : list SqlWrite) (s : Store) : Store :=
  mkStore cs ms (next_conversation_id s) (next_message_id s) (tick s)
    (issued s) (journal s ++ w).

(** The row holds the UUID that is printed as [u]. *)
Definition session_is (u : string) (c : Conversation.t) : bool :=
  String.eqb (Conversation.session_id c) u.

(** [session_id = sid] as the database decides it: [sid] is read as a
    UUID and the two values are compared, whatever the spelling of
    [sid]. *)
Definition has_session (sid : string) (c : Conversation.t) : bool :=
  match uuid_in sid with
  | Some u => session_is u c
  | None => false
  end.

Definition has_id (i : nat) (c : Conversation.t) : bool :=
  Nat.eqb (Conversation.id c) i.

Definition refers_to (mid : nat) (c : Conversation.t) : bool :=
  match Conversation.messagesId c with
  | Some m => Nat.eqb m mid
  | None => false
  end.

Definition message_has_id (i : nat) (m : Message.t) : bool :=
  Nat.eqb (Message.id m) i.

(** [id = k] for a key that was read as an integer. *)
Definition has_key (k : Z) (c : Conversation.t) : bool :=
  Z.eqb (Z.of_nat (Conversation.id c)) k.

Definition message_has_key (k : Z) (m : Message.t) : bool :=
  Z.eqb (Z.of_nat (Message.id m)) k.

(** [Conversation.findBy('session_id', sid)] *)
Definition Conversation_findBy_session_id (sid : string)
    : M (option Conversation.t) :=
  storage;;
  match uuid_in sid with
  | None => throw (Error "invalid input syntax for type uuid")
  | Some u =>
      s ← get_store;
      mret (find (session_is u) (conversations s))
  end.

(** A row as [Conversation.create] inserts it. *)
Definition blank_conversation (id : nat) (sid : string) (created : nat)
    : Conversation.t :=
  Conversation.mk id sid None JNull created created.

(** [Conversation.create({ session_id })]: [id] is the next value of the
    sequence, which is spent even when the row is then refused (the
    sequences are taken not to run out); the migration declares
    [session_id] a unique [uuid].  The instance returned keeps the text it
    was given. *)
Definition Conversation_create (sid : string) : M Conversation.t :=
  now ← storage;
  match uuid_in sid with
  | None => throw (Error "invalid input syntax for type uuid")
  | Some u =>
      s ← get_store;
      let i := next_conversation_id s in
      if existsb (session_is u) (conversations s) then
        modify (λ s, mkStore (conversations s) (messages s)
                       (S (next_conversation_id s)) (next_message_id s) (tick s)
                       (issued s) (journal s));;
        throw (Error "duplicate key value violates unique constraint")
      else
        modify (λ s, mkStore (conversations s ++ [blank_conversation i u now])
                       (messages s) (S (next_conversation_id s))
                       (next_message_id s) (tick s) (issued s)
                       (journal s ++ [InsertConversation i]));;
        mret (Conversation.mk i sid None JNull now now)
  end.

(** The value a column holds for what was assigned: an undefined
    attribute is left to the column's default, which is null. *)
Definition column_value (v : JsVal) : JsVal :=
  match v with
  | JUndefined => JNull
  | _ => v
  end.

(** [Message.create({ senderType, message })].  Whether a row without a
    text is accepted is the environment's [env_message_nullable]. *)
Definition Message_create (sender : SenderType) (text : JsVal) : M Message.t :=
  now ← storage;
  s ← get_store;
  E ← ask_env;
  let i := next_message_id s in
  match column_value text with
  | JNull =>
      if env_message_nullable E then
        modify (λ s, mkStore (conversations s)
                       (messages s ++ [Message.mk i sender JNull now])
                       (next_conversation_id s) (S (next_message_id s)) (tick s)
                       (issued s) (journal s ++ [InsertMessage i]));;
        mret (Message.mk i sender text now)
      else
        modify (λ s, mkStore (conversations s) (messages s)
                       (next_conversation_id s) (S (next_message_id s)) (tick s)
                       (issued s) (journal s));;
        throw (Error "null value in column message violates not-null constraint")
  | stored =>
      modify (λ s, mkStore (conversations s)
                     (messages s ++ [Message.mk i sender stored now])
                     (next_conversation_id s) (S (next_message_id s)) (tick s)
                     (issued s) (journal s ++ [InsertMessage i]));;
      mret (Message.mk i sender text now)
  end.

(** A value bound to the [jsonb] column [last_messages] (the migration's
    [table.jsonb('last_messages')]): null is stored as null; a string is
    parsed as a JSON text, so one that cannot start a JSON value is
    refused; whether and as what any other value is stored is the
    environment's answer. *)
Definition jsonb_in (E : Env) (v : JsVal) : option JsVal :=
  match v with
  | JNull => Some JNull
  | JStr text => if json_start text then env_jsonb E v else None
  | _ => env_jsonb E v
  end.

(** The columns [save] writes back: the two the controller assigns, and
    [updated_at] ([autoUpdate]). *)
Definition write_back (c : Conversation.t) (now : nat) (row : Conversation.t)
    : Conversation.t :=
  if has_id (Conversation.id c) row then
    Conversation.mk (Conversation.id row) (Conversation.session_id row)
      (Conversation.messagesId c) (Conversation.lastMessages c)
      (Conversation.createdAt row) now
  else row.

(** The instance with the value its [lastMessages] is stored as. *)
Definition stored_as (v : JsVal) (c : Conversation.t) : Conversation.t :=
  Conversation.mk (Conversation.id c) (Conversation.session_id c)
    (Conversation.messagesId c) v (Conversation.createdAt c)
    (Conversation.updatedAt c).

(** [conversation.save()] on a persisted instance whose [messagesId] and
    [lastMessages] were assigned.  [last_messages] is a [jsonb] column and
    [messages_id] references [messages.id]. *)
Definition Conversation_save (c : Conversation.t) : M unit :=
  now ← storage;
  E ← ask_env;
  match jsonb_in E (Conversation.lastMessages c) with
  | None => throw (Error "invalid input syntax for type json")
  | Some stored =>
      s ← get_store;
      match Conversation.messagesId c with
      | Some m =>
          if existsb (message_has_id m) (messages s) then mret tt
          else throw (Error "insert or update violates foreign key constraint")
      | None => mret tt
      end;;
      modify (λ s, set_tables
                     (fmap (write_back (stored_as stored c) now) (conversations s))
                     (messages s) [UpdateConversation (Conversation.id c)] s)
  end.

(** The key a [find] or a [where] on an integer column is given: a path
    parameter is a string, a missing one is undefined, which the query
    builder refuses.  PostgreSQL reads the text as an [integer]. *)
Definition integer_key (v : option string) : M Z :=
  match v with
  | None => throw (Error "Undefined binding(s) detected when compiling query")
  | Some s =>
      match parse_int s with
      | Some z =>
          if in_int4 z then mret z
          else throw (Error "value is out of range for type integer")
      | None => throw (Error "invalid input syntax for type integer")
      end
  end.

(** [Conversation.find(id)] *)
Definition Conversation_find (key : option string) : M (option Conversation.t) :=
  storage;;
  i ← integer_key key;
  s ← get_store;
  mret (find (has_key i) (conversations s)).

(** [Message.find(id)] *)
Definition Message_find (key : option string) : M (option Message.t) :=
  storage;;
  i ← integer_key key;
  s ← get_store;
  mret (find (message_has_key i) (messages s)).

(** [Conversation.query().where('messages_id', mid)] *)
Definition Conversation_where_messages_id (mid : nat) : M (list Conversation.t) :=
  storage;;
  s ← get_store;
  mret (filter (λ c, refers_to mid c = true) (conversations s)).

(** [conversation.delete()] *)
Definition Conversation_delete (c : Conversation.t) : M unit :=
  storage;;
  modify (λ s, set_tables
                 (filter (λ r, has_id (Conversation.id c) r = false) (conversations s))
                 (messages s) [DeleteConversation (Conversation.id c)] s).

(** The migration's [onDelete('SET NULL')] on [messages_id]. *)
Definition set_null (mid : nat) (row : Conversation.t) : Conversation.t :=
  if refers_to mid row then
    Conversation.mk (Conversation.id row) (Conversation.session_id row) None
      (Conversation.lastMessages row) (Conversation.createdAt row)
      (Conversation.updatedAt row)
  else row.

(** [message.delete()] *)
Definition Message_delete (m : Message.t) : M unit :=
  storage;;
  modify (λ s, set_tables
                 (fmap (set_null (Message.id m)) (conversations s))
                 (filter (λ r, message_has_id (Message.id m) r = false) (messages s))
                 [DeleteMessage (Message.id m)] s).

(** A conversation with its preloaded [lastMessage], as [serialize()]
    renders it: the columns and the related message or [null]. *)
Record Serialized : Type := mkSerialized {
  conversation : Conversation.t;
  lastMessage : option Message.t
}.

Definition quoted (s : string) : string :=
  String (ascii_of_nat 34) (String.append s (String (ascii_of_nat 34) EmptyString)).

(** The error Lucid raises when a relation names a key that is not an
    attribute of the model. *)
Definition missing_attribute : string :=
  String.append "E_MISSING_MODEL_ATTRIBUTE: "
    (String.append (quoted "Conversation.lastMessage")
       (String.append " expects "
          (String.append (quoted lastMessage_foreignKey)
             (String.append " to exist on "
                (String.append (quoted "Conversation")
                   " model, but is missing"))))).

(** [query.preload('lastMessage')] boots the relation: the foreign key
    the relation was declared with is looked up among the attributes of
    the model, by attribute name.  The model declares the attribute
    [messagesId] for the column [messages_id], and the relation names the
    column. *)
Definition preload_lastMessage : M unit :=
  if existsb (String.eqb lastMessage_foreignKey) (fst <$> Conversation_columns)
  then mret tt
  else throw (Error missing_attribute).

(** What a booted relation attaches to a row: the message its
    [messagesId] names. *)
Definition related_message (ms : list Message.t) (c : Conversation.t)
    : Serialized :=
  mkSerialized c
    (match Conversation.messagesId c with
     | Some m => find (message_has_id m) ms
     | None => None
     end).

(** [Conversation.query().where(column, value).preload('lastMessage').first()];
    [matching] is the condition once the database has read [value]. *)
Definition Conversation_first_with_lastMessage
    (matching : M (Conversation.t → bool)) : M (option Serialized) :=
  preload_lastMessage;;
  storage;;
  f ← matching;
  s ← get_store;
  mret (related_message (messages s) <$> find f (conversations s)).

Record Meta : Type := mkMeta {
  total : nat;
  perPage : nat;
  currentPage : nat;
  lastPage : option nat     (* [None] is [Infinity], at [perPage = 0] *)
}.

Definition div_ceil (a b : nat) : nat := (a + b - 1) / b.

(** [Conversation.query().preload('lastMessage')], an optional [where],
    then [paginate(page, limit)]: the relation is booted first; then the
    count of all matching rows, then the rows at offset
    [(page - 1) * limit]; the rows are not read when the count is zero,
    and a negative offset is refused. *)
Definition Conversation_paginate (matching : Conversation.t → bool)
    (page limit : nat) : M (Meta * list Serialized) :=
  preload_lastMessage;;
  storage;;
  s ← get_store;
  let rows := filter (λ c, matching c = true) (conversations s) in
  let n := List.length rows in
  let meta := mkMeta n limit page
                (if Nat.eqb limit 0 then None
                 else Some (Nat.max (div_ceil n limit) 1)) in
  if Nat.eqb n 0 then mret (meta, [])
  else if Nat.eqb page 0 then
    throw (Error "A non-negative integer must be provided to offset.")
  else
    mret (meta, related_message (messages s)
                  <$> take limit (drop ((page - 1) * limit) rows)).

(** ** Requests and responses *)

(** The query string of [GET /conversation].  [page] and [limit] are
    taken where they are decimal numerals. *)
Record Query : Type := mkQuery {
  qs_sessionId : option string;
  qs_page : option nat;
  qs_limit : option nat
}.

Record HttpContext : Type := mkContext {
  request_body : gmap string JsVal;
  request_qs : Query;
  params : gmap string string
}.

Inductive Body : Type :=
  | NoBody
  | JsonBody (v : JsVal)
  | AnswerBody (sessionId : string) (message : JsVal)  (* { sessionId, message } *)
  | ErrorsBody (errors : list FieldError)              (* { errors } *)
  | MessageBody (message : string)                     (* { message } *)
  | FailureBody (message : string) (error : string)    (* { message, error } *)
  | ConversationBody (c : Serialized)
  | PageBody (meta : Meta) (data : list Serialized).   (* { meta, data } *)

Record Response : Type := mkResponse {
  status : nat;
  body : Body
}.

Module response.
Definition ok (b : Body) : Response := mkResponse 200 b.
Definition noContent : Response := mkResponse 204 NoBody.
Definition badRequest (b : Body) : Response := mkResponse 400 b.
Definition notFound (b : Body) : Response := mkResponse 404 b.
Definition internalServerError (b : Body) : Response := mkResponse 500 b.
End response.

(** ** The validator: [questionSchema] *)

(** The object [request.validate] resolves to.  A field is left out of it
    when its value does not exist once trimmed. *)
Record Validated : Type := mkValidated {
  v_question : option string;
  v_sessionId : option string
}.

(** The validator's notion of a value being present. *)
Definition exists_value (v : JsVal) : bool :=
  match v with
  | JBool false | JNum 0 => true
  | _ => truthy v
  end.

(** [schema.string({ trim: true }, [rules.minLength(1)])]: a value must
    exist and be a string; it is trimmed, and [minLength] is run on what
    is left when that still exists. *)
Definition validate_question (v : JsVal) : option string + FieldError :=
  if exists_value v then
    match v with
    | JStr s =>
        let t := trim s in
        if exists_value (JStr t) then
          if Nat.ltb (String.length t) 1
          then inr (mkFieldError "minLength" "question" "minLength validation failed")
          else inl (Some t)
        else inl None
    | _ => inr (mkFieldError "string" "question" "string validation failed")
    end
  else inr (mkFieldError "required" "question" "required validation failed").

(** [schema.string.optional({ trim: true }, [rules.uuid()])] *)
Definition validate_sessionId (v : JsVal) : option string + FieldError :=
  if exists_value v then
    match v with
    | JStr s =>
        let t := trim s in
        if exists_value (JStr t) then
          if isUUIDv4 t then inl (Some t)
          else inr (mkFieldError "uuid" "sessionId" "uuid validation failed")
        else inl None
    | _ => inr (mkFieldError "string" "sessionId" "string validation failed")
    end
  else inl None.

Definition field_of (body : gmap string JsVal) (k : string) : JsVal :=
  default JUndefined (body !! k).

(** [request.validate({ schema: questionSchema })] *)
Definition request_validate (ctx : HttpContext) : M Validated :=
  match validate_question (field_of (request_body ctx) "question"),
        validate_sessionId (field_of (request_body ctx) "sessionId") with
  | inl q, inl sid => mret (mkValidated q sid)
  | inr e, inl _ => throw (ValidationException [e])
  | inl _, inr e => throw (ValidationException [e])
  | inr e1, inr e2 => throw (ValidationException [e1; e2])
  end.

(** A validated object that holds a question. *)
Record Payload : Type := mkPayload {
  question : string;
  sessionId : option string
}.

Definition with_question (v : Validated) : option Payload :=
  match v_question v with
  | Some q => Some (mkPayload q (v_sessionId v))
  | None => None
  end.

(** [request.validate] for a request whose question is not blank: the
    payload the properties of a stored question are stated for.  The
    handler calls [request_validate]; a validated object without a
    question is no payload. *)
Definition validate (ctx : HttpContext) : M Payload :=
  v ← request_validate ctx;
  match with_question v with
  | Some payload => mret payload
  | None => throw (Error "the validated object holds no question")
  end.

(** ** ConversationsController *)

Definition externalApiUrl : string :=
  "https://api.majadigidev.jatimprov.go.id/api/external/chatbot/send-message".

Definition fallback : string :=
  "Sorry, I could not get a response from the chatbot at this time.".

(** [if (payload.sessionId)]: a string counts when it is not empty. *)
Definition provided (o : option string) : option string :=
  match o with
  | Some s => if String.eqb s "" then None else Some s
  | None => None
  end.

(** Lines 67-84: the conversation the question belongs to, and the session
    id it is answered under: the stored one when the conversation was
    found, else the one supplied or generated. *)
Definition resolve_conversation (sessionId : option string)
    : M (option Conversation.t * string) :=
  match provided sessionId with
  | Some sid =>
      found ← Conversation_findBy_session_id sid;
      match found with
      | None =>
          c ← Conversation_create sid;
          mret (Some c, sid)
      | Some c => mret (Some c, Conversation.session_id c)
      end
  | None =>
      u ← uuidv4;
      c ← Conversation_create u;
      mret (Some c, u)
  end.

(** The inner [try] of lines 100-118: [botResponseText] after it. *)
Definition ask_chatbot (currentSessionId : string) (userQuestion : option string)
    : M JsVal :=
  try_catch
    (externalApiResponse ← axios_post externalApiUrl currentSessionId userQuestion;
     match externalApiResponse with
     | Rejected msg => throw (Error msg)
     | Resolved data =>
         if truthy data then
           match js_prop data "message" with
           | Some v => if truthy v then mret v else mret (JStr fallback)
           | None => throw (Error "Cannot read properties of undefined")
           end
         else mret (JStr fallback)
     end)
    (λ externalApiError, mret (JStr fallback)).

(** Lines 91-134: both messages are stored, the conversation is pointed
    at the bot's message, and the answer is returned. *)
Definition record_turn (conversation : Conversation.t)
    (currentSessionId : string) (userQuestion : option string) : M Response :=
  Message_create user (js_optional userQuestion);;
  botResponseText ← ask_chatbot currentSessionId userQuestion;
  botMessage ← Message_create bot botResponseText;
  Conversation_save
    (Conversation.mk (Conversation.id conversation)
       (Conversation.session_id conversation)
       (Some (Message.id botMessage)) (Message.message botMessage)
       (Conversation.createdAt conversation)
       (Conversation.updatedAt conversation));;
  mret (response.ok (AnswerBody currentSessionId botResponseText)).

Definition sendQuestion_try (ctx : HttpContext) : M Response :=
  payload ← request_validate ctx;
  let userQuestion := v_question payload in
  '(conversation, currentSessionId) ← resolve_conversation (v_sessionId payload);
  match conversation with
  | None =>
      mret (response.internalServerError
              (MessageBody "Failed to create or find conversation."))
  | Some conversation => record_turn conversation currentSessionId userQuestion
  end.

Definition sendQuestion_catch (error : JsError) : M Response :=
  match error with
  | ValidationException errors => mret (response.badRequest (ErrorsBody errors))
  | _ =>
      mret (response.internalServerError
              (FailureBody "An unexpected error occurred." (error_message error)))
  end.

Definition sendQuestion (ctx : HttpContext) : M Response :=
  try_catch (sendQuestion_try ctx) sendQuestion_catch.

(** [if (sessionId) { query.where('session_id', sessionId) }] *)
Definition session_filter (sessionId : option string) : Conversation.t → bool :=
  match provided sessionId with
  | Some sid => has_session sid
  | None => λ _, true
  end.

(** Lines 199-210: the query is built with [preload('lastMessage')]
    before the filter is added and the page is read. *)
Definition getAllConversations_try (ctx : HttpContext) : M Response :=
  let sessionId := qs_sessionId (request_qs ctx) in
  let page := default 1 (qs_page (request_qs ctx)) in
  let limit := default 10 (qs_limit (request_qs ctx)) in
  '(meta, data) ← Conversation_paginate (session_filter sessionId) page limit;
  mret (response.ok (PageBody meta data)).

Definition failure (generic : string) (error : JsError) : M Response :=
  mret (response.internalServerError (FailureBody generic (error_message error))).

Definition getAllConversations (ctx : HttpContext) : M Response :=
  try_catch (getAllConversations_try ctx)
    (failure "Failed to retrieve conversations.").

(** [String(v)] of a path parameter that may be missing. *)
Definition js_string (v : option string) : string := default "undefined" v.

Definition getConversationMessages_try (ctx : HttpContext) : M Response :=
  let idOrUuid := params ctx !! "id" in
  let is_uuid := isUUID (js_string idOrUuid) in
  conversation ←
    (if is_uuid then
       Conversation_first_with_lastMessage (mret (has_session (js_string idOrUuid)))
     else
       Conversation_first_with_lastMessage
         (i ← integer_key idOrUuid; mret (has_key i)));
  match conversation with
  | None => mret (response.notFound (MessageBody "Conversation not found."))
  | Some c => mret (response.ok (ConversationBody c))
  end.

Definition getConversationMessages (ctx : HttpContext) : M Response :=
  try_catch (getConversationMessages_try ctx)
    (failure "Failed to retrieve conversation details.").

Definition deleteConversation_try (ctx : HttpContext) : M Response :=
  conversation ← Conversation_find (params ctx !! "id");
  match conversation with
  | None => mret (response.notFound (MessageBody "Conversation not found."))
  | Some conversation =>
      Conversation_delete conversation;;
      mret response.noContent
  end.

Definition deleteConversation (ctx : HttpContext) : M Response :=
  try_catch (deleteConversation_try ctx)
    (failure "Failed to delete conversation.").

(** The loop of lines 396-400. *)
Fixpoint clear_each (conversationsToUpdate : list Conversation.t) : M unit :=
  match conversationsToUpdate with
  | [] => mret tt
  | conv :: rest =>
      Conversation_save
        (Conversation.mk (Conversation.id conv) (Conversation.session_id conv)
           None JNull (Conversation.createdAt conv) (Conversation.updatedAt conv));;
      clear_each rest
  end.

Definition deleteMessage_try (ctx : HttpContext) : M Response :=
  message ← Message_find (params ctx !! "id");
  match message with
  | None => mret (response.notFound (MessageBody "Message not found."))
  | Some message =>
      conversationsToUpdate ← Conversation_where_messages_id (Message.id message);
      clear_each conversationsToUpdate;;
      Message_delete message;;
      mret response.noContent
  end.

Definition deleteMessage (ctx : HttpContext) : M Response :=
  try_catch (deleteMessage_try ctx) (failure "Failed to delete message.").
(** ** start/routes.ts *)

Inductive Verb : Type := GET | POST | DELETE.

Inductive Segment : Type :=
  | Lit (s : string)
  | Param (name : string).       (* [:name] *)

(** A route handler: a closure, or a ['Controller.method'] binding that
    is resolved when a request arrives. *)
Inductive RouteHandler : Type :=
  | Closure (h : HttpContext → M Response)
  | Binding (controller method : string).

Record Route : Type := mkRoute {
  route_verb : Verb;
  route_pattern : list Segment;
  route_handler : RouteHandler
}.

Definition routes : list Route :=
  [ mkRoute GET [] (Closure (λ _, mret (response.ok
      (JsonBody (JObj [("hello", JStr "world")])))));
    mkRoute POST [Lit "questions"]
      (Binding "ConversationsController" "sendQuestion");
    mkRoute GET [Lit "conversation"]
      (Binding "ConversationsController" "getAllConversations");
    mkRoute GET [Lit "conversation"; Param "id_or_uuid"]
      (Binding "ConversationsController" "getConversationById");
    mkRoute DELETE [Lit "conversation"; Param "id"]
      (Binding "ConversationsController" "deleteConversation");
    mkRoute DELETE [Lit "message"; Param "id"]
      (Binding "ConversationsController" "deleteMessage") ].

(** The methods the class [ConversationsController] defines. *)
Definition ConversationsController (method : string)
    : option (HttpContext → M Response) :=
  if String.eqb method "sendQuestion" then Some sendQuestion
  else if String.eqb method "getAllConversations" then Some getAllConversations
  else if String.eqb method "getConversationMessages" then Some getConversationMessages
  else if String.eqb method "deleteConversation" then Some deleteConversation
  else if String.eqb method "deleteMessage" then Some deleteMessage
  else None.

Definition controllers (name : string)
    : option (string → option (HttpContext → M Response)) :=
  if String.eqb name "ConversationsController" then Some ConversationsController
  else None.

Definition verb_eqb (a b : Verb) : bool :=
  match a, b with
  | GET, GET | POST, POST | DELETE, DELETE => true
  | _, _ => false
  end.

(** The parameters a path binds against a pattern, segment by segment. *)
Fixpoint match_pattern (pattern : list Segment) (path : list string)
    : option (gmap string string) :=
  match pattern, path with
  | [], [] => Some ∅
  | Lit l :: pattern', seg :: path' =>
      if String.eqb l seg then match_pattern pattern' path' else None
  | Param name :: pattern', seg :: path' =>
      insert name seg <$> match_pattern pattern' path'
  | _, _ => None
  end.

Record Request : Type := mkRequest {
  req_verb : Verb;
  req_path : list string;
  req_qs : Query;
  req_body : gmap string JsVal
}.

Inductive Dispatch : Type :=
  | NoRoute                                   (* no route matches *)
  | MissingMethod (controller method : string) (* the binding names no method *)
  | Handled (run : M Response).

Fixpoint find_route (rs : list Route) (req : Request)
    : option (Route * gmap string string) :=
  match rs with
  | [] => None
  | r :: rs' =>
      if verb_eqb (route_verb r) (req_verb req) then
        match match_pattern (route_pattern r) (req_path req) with
        | Some ps => Some (r, ps)
        | None => find_route rs' req
        end
      else find_route rs' req
  end.

Definition dispatch (req : Request) : Dispatch :=
  match find_route routes req with
  | None => NoRoute
  | Some (r, ps) =>
      let ctx := mkContext (req_body req) (req_qs req) ps in
      match route_handler r with
      | Closure h => Handled (h ctx)
      | Binding controller method =>
          match controllers controller ≫= (λ c, c method) with
          | Some h => Handled (h ctx)
          | None => MissingMethod controller method
          end
      end
  end.

(** * Properties *)

(** ** Assumptions on the environment and the store *)

(** No storage statement fails. *)
Definition fault_free (E : Env) : Prop := ∀ t, env_fault E t = None.

Definition sessions (s : Store) : list string :=
  Conversation.session_id <$> conversations s.

(** A non-null last-message reference names a stored message. *)
Definition ref_integrity (cs : list Conversation.t) (ms : list Message.t) : Prop :=
  ∀ c m, c ∈ cs → Conversation.messagesId c = Some m →
    ∃ msg, msg ∈ ms ∧ Message.id msg = m.

(** What the schema guarantees of the tables: primary keys are unique and
    below their sequences, session ids are unique, references resolve. *)
Record store_wf (s : Store) : Prop := mk_store_wf {
  wf_conversation_ids : NoDup (Conversation.id <$> conversations s);
  wf_conversation_seq : ∀ c, c ∈ conversations s →
                          Conversation.id c < next_conversation_id s;
  wf_message_ids : NoDup (Message.id <$> messages s);
  wf_message_seq : ∀ m, m ∈ messages s → Message.id m < next_message_id s;
  wf_sessions : NoDup (sessions s);
  wf_references : ref_integrity (conversations s) (messages s)
}.

(** The text [botResponseText] ends with, by the outcome of the call. *)
Definition bot_answer (o : ApiOutcome) : JsVal :=
  match o with
  | Rejected _ => JStr fallback
  | Resolved data =>
      match js_prop data "message" with
      | Some v => if truthy data && truthy v then v else JStr fallback
      | None => JStr fallback
      end
  end.


(** The answer [record_turn] works with when it starts in [s]: the
    external call is its second step. *)
Definition turn_answer (E : Env) (s : Store) (sid q : string) : JsVal :=
  bot_answer (env_axios E (S (tick s)) externalApiUrl sid (Some q)).

(** The store once [record_turn] has stored both messages. *)
Definition asked_store (E : Env) (s : Store) (sid q : string) : Store :=
  let t := tick s in
  let k := next_message_id s in
  mkStore (conversations s)
    (messages s ++ [Message.mk k user (JStr q) (env_clock E t);
                    Message.mk (S k) bot (turn_answer E s sid q)
                      (env_clock E (2 + t))])
    (next_conversation_id s) (2 + k) (3 + t) (issued s)
    (journal s ++ [InsertMessage k; InsertMessage (S k)]).

(** The row of [c] once [save] has pointed it at message [m], with the
    answer stored as [v]. *)
Definition pointed_at (c : Conversation.t) (m : nat) (v : JsVal) (now : nat)
    : Conversation.t :=
  Conversation.mk (Conversation.id c) (Conversation.session_id c)
    (Some m) v (Conversation.createdAt c) now.

(** The store after [record_turn] when the answer was stored as [v]. *)
Definition turn_store (E : Env) (s : Store) (c : Conversation.t)
    (sid q : string) (v : JsVal) : Store :=
  let t := tick s in
  let k := next_message_id s in
  let a := asked_store E s sid q in
  mkStore
    (fmap (write_back (pointed_at c (S k) v (env_clock E (3 + t)))
             (env_clock E (3 + t))) (conversations s))
    (messages a) (next_conversation_id s) (2 + k) (4 + t) (issued s)
    (journal a ++ [UpdateConversation (Conversation.id c)]).

(** The store after [Conversation.create] inserted a row for the UUID
    printed as [u]. *)
Definition created_store (E : Env) (s : Store) (u : string) : Store :=
  mkStore
    (conversations s
       ++ [blank_conversation (next_conversation_id s) u (env_clock E (tick s))])
    (messages s)
    (S (next_conversation_id s)) (next_message_id s) (S (tick s)) (issued s)
    (journal s ++ [InsertConversation (next_conversation_id s)]).

(** The store after [uuidv4()]. *)
Definition drew_store (E : Env) (s : Store) : Store :=
  mkStore (conversations s) (messages s) (next_conversation_id s)
    (next_message_id s) (S (tick s)) (issued s ++ [env_uuid E (tick s)])
    (journal s).

(** What [save] throws when the database refuses the answer. *)
Definition not_json : string := "invalid input syntax for type json".

(** The two ways [sendQuestion] answers once both messages are stored. *)
Definition answered (sid : string) (answer : JsVal) : Response :=
  response.ok (AnswerBody sid answer).

Definition refused : Response :=
  response.internalServerError
    (FailureBody "An unexpected error occurred." not_json).

(** How [sendQuestion] ends once the conversation is resolved and the
    store is [s]: with both messages stored, and the answer either stored
    with the conversation and returned, or refused by the database. *)
Definition turn_outcome (E : Env) (s : Store) (c : Conversation.t)
    (sid q : string) : Store * Result Response :=
  match jsonb_in E (turn_answer E s sid q) with
  | Some v => (turn_store E s c sid q v, Ok (answered sid (turn_answer E s sid q)))
  | None => (set_tick (4 + tick s) (asked_store E s sid q), Ok refused)
  end.

(** The row of [c] after [sendQuestion] stored [botMessage]: pointed at
    it when the database took its text, left as it was when not. *)
Definition saved_row (E : Env) (c : Conversation.t) (botMessage : Message.t)
    (now : nat) : Conversation.t :=
  match jsonb_in E (Message.message botMessage) with
  | Some v => pointed_at c (Message.id botMessage) v now
  | None => c
  end.

(** The response that goes with it. *)
Definition turn_response (E : Env) (sid : string) (botMessage : Message.t)
    : Response :=
  match jsonb_in E (Message.message botMessage) with
  | Some _ => answered sid (Message.message botMessage)
  | None => refused
  end.

(** [store_wf] as a check that computes. *)
Definition resolves (ms : list Message.t) (c : Conversation.t) : bool :=
  match Conversation.messagesId c with
  | Some m => existsb (message_has_id m) ms
  | None => true
  end.

Definition store_wfb (s : Store) : bool :=
  bool_decide (NoDup (Conversation.id <$> conversations s))
  && forallb (λ c, Nat.ltb (Conversation.id c) (next_conversation_id s))
       (conversations s)
  && bool_decide (NoDup (Message.id <$> messages s))
  && forallb (λ m, Nat.ltb (Message.id m) (next_message_id s)) (messages s)
  && bool_decide (NoDup (sessions s))
  && forallb (resolves (messages s)) (conversations s).

(** How the loop of [deleteMessage] leaves a row, given the ids of the
    conversations it saves: the row stays, and is cleared when its id is
    one of them. *)
Definition cleared_among (ids : list nat) (r r' : Conversation.t) : Prop :=
  Conversation.id r' = Conversation.id r ∧
  Conversation.session_id r' = Conversation.session_id r ∧
  Conversation.createdAt r' = Conversation.createdAt r ∧
  if bool_decide (Conversation.id r ∈ ids)
  then Conversation.messagesId r' = None ∧ Conversation.lastMessages r' = JNull
  else r' = r.

(** How [deleteMessage] leaves a row: it stays, cleared when it referred
    to the message. *)
Definition cleared_if_referring (mid : nat) (r r' : Conversation.t) : Prop :=
  Conversation.id r' = Conversation.id r ∧
  Conversation.session_id r' = Conversation.session_id r ∧
  Conversation.createdAt r' = Conversation.createdAt r ∧
  if refers_to mid r
  then Conversation.messagesId r' = None ∧ Conversation.lastMessages r' = JNull
  else r' = r.

(** The five operations of the controller, with the [try] block of each
    and the fixed message its [catch] answers with. *)
Inductive Operation : Type :=
  | OpSendQuestion
  | OpGetAllConversations
  | OpGetConversationMessages
  | OpDeleteConversation
  | OpDeleteMessage.

Definition operation (op : Operation) : HttpContext → M Response :=
  match op with
  | OpSendQuestion => sendQuestion
  | OpGetAllConversations => getAllConversations
  | OpGetConversationMessages => getConversationMessages
  | OpDeleteConversation => deleteConversation
  | OpDeleteMessage => deleteMessage
  end.

Definition operation_try (op : Operation) : HttpContext → M Response :=
  match op with
  | OpSendQuestion => sendQuestion_try
  | OpGetAllConversations => getAllConversations_try
  | OpGetConversationMessages => getConversationMessages_try
  | OpDeleteConversation => deleteConversation_try
  | OpDeleteMessage => deleteMessage_try
  end.

Definition generic_message (op : Operation) : string :=
  match op with
  | OpSendQuestion => "An unexpected error occurred."
  | OpGetAllConversations => "Failed to retrieve conversations."
  | OpGetConversationMessages => "Failed to retrieve conversation details."
  | OpDeleteConversation => "Failed to delete conversation."
  | OpDeleteMessage => "Failed to delete message."
  end.

(** ** A small deployment, used in the examples *)

Definition uuid_a : string := "3f2b8c1e-7a4d-4e9b-9c1a-5d6e7f8a9b0c".
Definition uuid_b : string := "0f8fad5b-d9cb-469f-a165-70867728950e".
Definition uuid_c : string := "7c9e6679-7425-40de-944b-e07fc1f90ae7".

(** A chatbot that answers [ping] with a word and [six times seven] with
    a numeral, delivers an empty [message] for [empty], and times out on
    everything else. *)
Definition demo_chatbot (message : option string) : ApiOutcome :=
  match message with
  | Some m =>
      if String.eqb m "ping" then Resolved (JObj [("message", JStr "pong")])
      else if String.eqb m "six times seven"
      then Resolved (JObj [("message", JStr "42")])
      else if String.eqb m "empty" then Resolved (JObj [("message", JStr "")])
      else Rejected "timeout of 5000ms exceeded"
  | None => Rejected "Request failed with status code 422"
  end.

Definition demo_uuid (t : nat) : string :=
  if Nat.ltb t 6 then uuid_a else uuid_b.

Definition demo_uuid_canonical (t : nat)
    : uuid_in (demo_uuid t) = Some (demo_uuid t) :=
  match Nat.ltb t 6 as b
    return uuid_in (if b then uuid_a else uuid_b)
           = Some (if b then uuid_a else uuid_b)
  with
  | true => eq_refl
  | false => eq_refl
  end.

(** A database that reads the text [42] as the number it writes, and
    takes no other answer of the chatbot above for JSON. *)
Definition demo_jsonb (v : JsVal) : option JsVal :=
  match v with
  | JStr text => if String.eqb text "42" then Some (JNum 42) else None
  | _ => None
  end.

Definition demo_env : Env :=
  mkEnv demo_uuid demo_uuid_canonical (λ _ _ _ message, demo_chatbot message)
    (λ _, None) (λ t, 1000 + t) demo_jsonb false.

(** The same deployment with the database unreachable. *)
Definition db_down : string := "connect ECONNREFUSED 127.0.0.1:5432".

Definition failing_env : Env :=
  mkEnv demo_uuid demo_uuid_canonical (λ _ _ _ message, demo_chatbot message)
    (λ _, Some db_down) (λ t, 1000 + t) demo_jsonb false.

(** The same deployment with storage failing at logical time [at_time]
    only. *)
Definition flaky_env (at_time : nat) : Env :=
  mkEnv demo_uuid demo_uuid_canonical (λ _ _ _ message, demo_chatbot message)
    (λ t, if Nat.eqb t at_time then Some db_down else None)
    (λ t, 1000 + t) demo_jsonb false.

Definition empty_store : Store := mkStore [] [] 1 1 0 [] [].

(** The store after [{ question: "six times seven" }] was asked of the
    empty one. *)
Definition demo_conversation : Conversation.t :=
  Conversation.mk 1 uuid_a (Some 2) (JNum 42) 1001 1005.

Definition demo_question : Message.t :=
  Message.mk 1 user (JStr "six times seven") 1002.

Definition demo_reply : Message.t := Message.mk 2 bot (JStr "42") 1004.

Definition demo_store : Store :=
  mkStore [demo_conversation] [demo_question; demo_reply] 2 3 6 [uuid_a]
    [InsertConversation 1; InsertMessage 1; InsertMessage 2; UpdateConversation 1].

(** Three conversations, none with a last message. *)
Definition three_store : Store :=
  mkStore [blank_conversation 1 uuid_a 1001; blank_conversation 2 uuid_b 1002;
           blank_conversation 3 uuid_c 1003]
    [] 4 1 3 []
    [InsertConversation 1; InsertConversation 2; InsertConversation 3].

Definition no_query : Query := mkQuery None None None.

(** [POST /questions] with [{ question }] and with [{ question, sessionId }]. *)
Definition ask (q : string) : HttpContext :=
  mkContext {[ "question" := JStr q ]} no_query ∅.

Definition ask_in (sid q : string) : HttpContext :=
  mkContext (<[ "sessionId" := JStr sid ]> {[ "question" := JStr q ]}) no_query ∅.

(** A request whose route bound [:id] to [k]. *)
Definition with_id (k : string) : HttpContext :=
  mkContext ∅ no_query {[ "id" := k ]}.

(** ** Notions used by the invariants *)

(** A computation that keeps the store well-formed, however it ends. *)
Definition preserves {A} (m : M A) : Prop :=
  ∀ E s s' r, store_wf s → m E s = (s', r) → store_wf s'.

(** Every value [m] returns satisfies [P] (nothing is said of a throw). *)
Definition answers {A} (P : A → Prop) (m : M A) : Prop :=
  ∀ E s s' a, m E s = (s', Ok a) → P a.

(** The stores before and after [m] are related by [R], however [m] ends. *)
Definition follows {A} (R : Store → Store → Prop) (m : M A) : Prop :=
  ∀ E s s' r, m E s = (s', r) → R s s'.

(** The status codes each operation's handler can answer with. *)
Definition statuses (op : Operation) : list nat :=
  match op with
  | OpSendQuestion => [200; 400; 500]
  | OpGetAllConversations => [200; 500]
  | OpGetConversationMessages => [200; 404; 500]
  | OpDeleteConversation | OpDeleteMessage => [204; 404; 500]
  end.

(** Nothing but logical time differs between two stores. *)
Definition same_tables (s s' : Store) : Prop :=
  conversations s' = conversations s ∧
  messages s' = messages s ∧
  next_conversation_id s' = next_conversation_id s ∧
  next_message_id s' = next_message_id s ∧
  issued s' = issued s ∧
  journal s' = journal s.

(** No row is removed, moved or renumbered, the sequences do not go
    back, and the journal only grows: the messages are kept as they are,
    and the conversations keep their place, primary id and session id. *)
Definition keeps_rows (s s' : Store) : Prop :=
  messages s `prefix_of` messages s' ∧
  (Conversation.id <$> conversations s)
    `prefix_of` (Conversation.id <$> conversations s') ∧
  (Conversation.session_id <$> conversations s)
    `prefix_of` (Conversation.session_id <$> conversations s') ∧
  (next_conversation_id s ≤ next_conversation_id s')%nat ∧
  (next_message_id s ≤ next_message_id s')%nat ∧
  journal s `prefix_of` journal s'.

(** No row is added: what is stored afterwards was stored before, in the
    same order, no id is handed out and no UUID is drawn. *)
Definition adds_no_row (s s' : Store) : Prop :=
  messages s' `sublist_of` messages s ∧
  (Conversation.id <$> conversations s')
    `sublist_of` (Conversation.id <$> conversations s) ∧
  next_conversation_id s' = next_conversation_id s ∧
  next_message_id s' = next_message_id s ∧
  issued s' = issued s.

(** One request served: the store its handler leaves, or the store as it
    was when the request reaches no handler. *)
Definition serve (E : Env) (s : Store) (req : Request) : Store :=
  match dispatch req with
  | Handled run => (run E s).1
  | _ => s
  end.

(** Requests served one after another, each on the store the previous one
    left. *)
Definition serve_all (E : Env) (reqs : list Request) (s : Store) : Store :=
  foldl (serve E) s reqs.

(** The cached answer of a conversation is what the database made of the
    text of the message it refers to, which is a bot's; without a
    reference there is no cached answer. *)
Definition cached (E : Env) (ms : list Message.t) (c : Conversation.t) : Prop :=
  match Conversation.messagesId c with
  | Some m =>
      ∃ msg, msg ∈ ms ∧ Message.id msg = m ∧ Message.senderType msg = bot ∧
             jsonb_in E (Message.message msg) = Some (Conversation.lastMessages c)
  | None => Conversation.lastMessages c = JNull
  end.

Definition cache_coherent (E : Env) (s : Store) : Prop :=
  ∀ c, c ∈ conversations s → cached E (messages s) c.


(** In environment [E], [m] started where [P] holds ends where [Q] holds
    of what it returns, or throws where [I] holds. *)
Definition hoare {A} (E : Env) (I P : Store → Prop) (m : M A)
    (Q : A → Store → Prop) : Prop :=
  ∀ s s' r, P s → m E s = (s', r) →
    match r with
    | Ok a => Q a s'
    | Throw _ => I s'
    end.

(** [m] keeps the cache coherent, however it ends. *)
Definition keeps_coherent {A} (E : Env) (m : M A) : Prop :=
  hoare E (cache_coherent E) (cache_coherent E) m (λ _, cache_coherent E).


(** [i] was handed out as a conversation id (a message id) and names no
    row: the row was deleted, or its insertion failed. *)
Definition retired_conversation_id (i : nat) (s : Store) : Prop :=
  (i < next_conversation_id s)%nat ∧ i ∉ Conversation.id <$> conversations s.

Definition retired_message_id (i : nat) (s : Store) : Prop :=
  (i < next_message_id s)%nat ∧ i ∉ Message.id <$> messages s.

(** No stored row is edited where it must not be: a message stored
    afterwards is one stored before, field for field, or a new one; a
    conversation stored afterwards has the id, session id and creation
    time of one stored before, or is a new one. *)
Definition same_conversation (c c' : Conversation.t) : Prop :=
  Conversation.id c = Conversation.id c' ∧
  Conversation.session_id c = Conversation.session_id c' ∧
  Conversation.createdAt c = Conversation.createdAt c'.

Definition edits_no_message (s s' : Store) : Prop :=
  (next_conversation_id s ≤ next_conversation_id s')%nat ∧
  (next_message_id s ≤ next_message_id s')%nat ∧
  (∀ m, m ∈ messages s' →
        m ∈ messages s ∨ (next_message_id s ≤ Message.id m)%nat) ∧
  (∀ c', c' ∈ conversations s' →
         (∃ c, c ∈ conversations s ∧ same_conversation c c') ∨
         (next_conversation_id s ≤ Conversation.id c')%nat).

(** A string of [n] hexadecimal digits, of either case. *)
Fixpoint all_hex (s : string) : bool :=
  match s with
  | EmptyString => true
  | String c s' => is_hex c && all_hex s'
  end.

Definition hex_group (n : nat) (s : string) : Prop :=
  String.length s = n ∧ all_hex s = true.

(** * Lemmas *)

(** ** Running the monad *)

Ltac m_unfold :=
  unfold mbind, M_bind, mret, M_ret, bind, ret, throw, modify,
    get_store, ask_env, try_catch, next_tick in *.

Lemma bind_ok {A B} (m : M A) (k : A → M B) E s s' a :
  m E s = (s', Ok a) → (m ≫= k) E s = k a E s'.
Proof. intros H. m_unfold. by rewrite H. Qed.

Lemma bind_throw {A B} (m : M A) (k : A → M B) E s s' e :
  m E s = (s', Throw e) → (m ≫= k) E s = (s', Throw e).
Proof. intros H. m_unfold. by rewrite H. Qed.

Lemma storage_ok_at E s :
  env_fault E (tick s) = None →
  storage E s = (set_tick (S (tick s)) s, Ok (env_clock E (tick s))).
Proof. intros H. unfold storage. m_unfold. simpl. by rewrite H. Qed.

Lemma storage_run E s :
  fault_free E →
  storage E s = (set_tick (S (tick s)) s, Ok (env_clock E (tick s))).
Proof. intros H. apply storage_ok_at, H. Qed.

Lemma storage_fault E s msg :
  env_fault E (tick s) = Some msg →
  storage E s = (set_tick (S (tick s)) s, Throw (Error msg)).
Proof. intros H. unfold storage. m_unfold. simpl. by rewrite H. Qed.

(** ** Texts the database reads *)

Lemma hex_is_no_mark c :
  is_hex c = true → Ascii.eqb c "-" = false ∧ Ascii.eqb c "{" = false.
Proof. destruct c as [[] [] [] [] [] [] [] []]; vm_compute; intuition congruence. Qed.

Lemma digit_is_no_mark c :
  is_digit c = true →
  is_blank c = false ∧ Ascii.eqb c "-" = false ∧ Ascii.eqb c "+" = false.
Proof. destruct c as [[] [] [] [] [] [] [] []]; vm_compute; intuition congruence. Qed.

Lemma dash_inv k s :
  dash k s = true → ∃ rest, s = String "-" rest ∧ k rest = true.
Proof.
  destruct s as [|c s]; simpl; [done|]. rewrite andb_true_iff.
  intros [Hc Hk]. apply Ascii.eqb_eq in Hc as ->. by exists s.
Qed.

Lemma hex_run_inv n k s :
  hex_run (S n) k s = true →
  ∃ c rest, s = String c rest ∧ is_hex c = true ∧ hex_run n k rest = true.
Proof.
  simpl. destruct s as [|c s]; [done|]. rewrite andb_true_iff.
  intros [Hc Hk]. by exists c, s.
Qed.

Lemma one_of_hex_inv allowed k s :
  forallb is_hex (list_ascii_of_string allowed) = true →
  one_of allowed k s = true →
  ∃ c rest, s = String c rest ∧ is_hex c = true ∧ k rest = true.
Proof.
  intros Hall. destruct s as [|c s]; simpl; [done|]. rewrite andb_true_iff.
  intros [Hc Hk]. exists c, s. split; [done|]. split; [|done].
  apply existsb_exists in Hc as (a & Ha & He).
  apply Ascii.eqb_eq in He as ->.
  rewrite forallb_forall in Hall. by apply Hall.
Qed.

Lemma at_end_inv s : at_end s = true → s = EmptyString.
Proof. by destruct s. Qed.

Ltac hex_step H :=
  first
    [ apply hex_run_inv in H as (? & ? & -> & ? & H)
    | apply dash_inv in H as (? & -> & H)
    | apply one_of_hex_inv in H as (? & ? & -> & ? & H); [|reflexivity]
    | progress change (hex_run 0 ?k ?s) with (k s) in H ].

Ltac read_uuid :=
  unfold uuid_in;
  repeat match goal with
         | Hc : is_hex ?c = true |- _ =>
             let H1 := fresh in
             let H2 := fresh in
             destruct (hex_is_no_mark c Hc) as [H1 H2]; revert Hc H1 H2
         end;
  intros;
  repeat match goal with
         | Hc : _ = _ |- _ => rewrite Hc
         | _ => progress cbn -[is_hex lower uuid_out]
         end;
  eauto.

(** A text of the five-group pattern is read as a UUID, and so is what
    the validator's rule lets through. *)
Lemma isUUID_is_read s : isUUID s = true → ∃ u, uuid_in s = Some u.
Proof.
  unfold isUUID. intros H. repeat hex_step H. apply at_end_inv in H as ->.
  read_uuid.
Qed.


Lemma leading_digits_all acc s :
  all_digits s = true → ∃ z, leading_digits acc s = (z, EmptyString).
Proof.
  revert acc. induction s as [|c s IH]; simpl; intros acc; [eauto|].
  rewrite andb_true_iff. intros [Hc Hs]. rewrite Hc. by apply IH.
Qed.

(** The numeral of a primary id is read as that integer. *)
Lemma parse_nat_int k i :
  parse_nat k = Some i →
  parse_int k = Some (Z.of_nat i) ∧ in_int4 (Z.of_nat i) = true.
Proof.
  unfold parse_nat. destruct k as [|c k]; [done|].
  destruct (all_digits (String c k)) eqn:Hall; [|done].
  destruct (leading_digits_all 0 _ Hall) as [z Hz]. rewrite Hz. simpl.
  assert (0 ≤ z)%Z as Hpos.
  { assert (∀ s acc z', (0 ≤ acc)%Z → leading_digits acc s = (z', EmptyString) →
                        (0 ≤ z')%Z) as Hmono.
    { induction s as [|a s IH]; simpl; intros acc z' Hacc.
      - intros [= <-]. done.
      - destruct (is_digit a); [|done]. apply IH. lia. }
    by apply (Hmono (String c k) 0%Z z). }
  destruct (Z.leb_spec z int4_max) as [Hle|]; [|done].
  intros [= <-]. rewrite Z2Nat.id by done.
  simpl in Hall. apply andb_true_iff in Hall as [Hc Hk].
  destruct (digit_is_no_mark c Hc) as (Hb & Hm & Hp).
  split.
  - unfold parse_int. simpl skip_blanks. rewrite Hb, Hm, Hp, Hc, Hz. done.
  - unfold in_int4. apply andb_true_iff. split; apply Z.leb_le; [|done].
    unfold int4_min. lia.
Qed.

(** ** The validator *)

Lemma request_validate_pure ctx E s s' r :
  request_validate ctx E s = (s', r) → s' = s.
Proof.
  unfold request_validate.
  destruct (validate_question _), (validate_sessionId _); m_unfold; congruence.
Qed.

Lemma validate_pure ctx E s s' r : validate ctx E s = (s', r) → s' = s.
Proof.
  unfold validate. m_unfold.
  destruct (request_validate ctx E s) as [s1 [v|e]] eqn:Hv;
    pose proof (request_validate_pure _ _ _ _ _ Hv) as ->.
  - destruct (with_question v); congruence.
  - congruence.
Qed.

Lemma validate_question_not_empty v q :
  validate_question v = inl (Some q) → q ≠ "".
Proof.
  unfold validate_question. destruct (exists_value v); [|done].
  destruct v; try done.
  destruct (exists_value (JStr (trim s))) eqn:Hx; [|done].
  destruct (Nat.ltb _ 1); [done|]. intros [= <-] He. rewrite He in Hx. done.
Qed.

Lemma validate_sessionId_uuid v sid :
  validate_sessionId v = inl (Some sid) → isUUIDv4 sid = true.
Proof.
  unfold validate_sessionId. destruct (exists_value v); [|done].
  destruct v; try done.
  destruct (exists_value (JStr (trim s))); [|done].
  destruct (isUUIDv4 (trim s)) eqn:H; [|done]. congruence.
Qed.

Lemma isUUIDv4_not_empty sid : isUUIDv4 sid = true → String.eqb sid "" = false.
Proof. by destruct sid. Qed.

(** What a validated object holds: a question that is not empty, and a
    session id that the validator's UUID rule let through. *)
Lemma request_validate_ok ctx E s s' v :
  request_validate ctx E s = (s', Ok v) →
  (∀ q, v_question v = Some q → q ≠ "") ∧
  (∀ sid, v_sessionId v = Some sid → isUUIDv4 sid = true) ∧
  provided (v_sessionId v) = v_sessionId v.
Proof.
  unfold request_validate.
  destruct (validate_question _) as [q|] eqn:Hq,
           (validate_sessionId _) as [o|] eqn:Hs; m_unfold; try done.
  intros [= _ <-]. simpl. split; [|split].
  - intros q' ->. by eapply validate_question_not_empty.
  - intros sid ->. by eapply validate_sessionId_uuid.
  - destruct o as [sid|]; [|done]. simpl.
    by rewrite (isUUIDv4_not_empty _ (validate_sessionId_uuid _ _ Hs)).
Qed.

(** A payload is a validated object with its question. *)
Lemma validate_ok ctx E s s' payload :
  validate ctx E s = (s', Ok payload) →
  request_validate ctx E s
  = (s, Ok (mkValidated (Some (question payload)) (sessionId payload))) ∧
  question payload ≠ "" ∧
  (∀ sid, sessionId payload = Some sid → isUUIDv4 sid = true) ∧
  provided (sessionId payload) = sessionId payload.
Proof.
  intros Hv. pose proof (validate_pure _ _ _ _ _ Hv) as ->.
  unfold validate in Hv. m_unfold.
  destruct (request_validate ctx E s) as [s1 [v|e]] eqn:Hr; [|done].
  pose proof (request_validate_pure _ _ _ _ _ Hr) as ->.
  destruct (request_validate_ok _ _ _ _ _ Hr) as (Hq & Hsid & Hp).
  destruct v as [[q|] sid]; simpl in *; [|done].
  injection Hv as <-. simpl. split; [done|]. split; [by apply Hq|]. done.
Qed.

(** ** The external call *)

Lemma ask_chatbot_run E s sid q :
  ask_chatbot sid q E s
  = (set_tick (S (tick s)) s,
     Ok (bot_answer (env_axios E (tick s) externalApiUrl sid q))).
Proof.
  unfold ask_chatbot, axios_post. m_unfold. simpl.
  destruct (env_axios E (tick s) externalApiUrl sid q) as [msg|data]; simpl; [done|].
  destruct data; simpl; try done.
  - by destruct b.
  - by destruct (Z.eqb n 0).
  - by destruct (String.eqb s0 "").
  - by destruct (truthy (default JUndefined (assoc_last "message" fields))).
Qed.

Lemma bot_answer_truthy o : truthy (bot_answer o) = true.
Proof.
  destruct o as [msg|data]; [done|]. simpl.
  destruct (js_prop data "message") as [v|]; [|done].
  destruct (truthy data); simpl; [|done]. by destruct (truthy v) eqn:Hv.
Qed.



(** The fallback text cannot start a JSON value: the [jsonb] column
    refuses it whatever the database. *)
Lemma fallback_is_not_json E : jsonb_in E (JStr fallback) = None.
Proof. reflexivity. Qed.

(** ** Inserting and saving *)

Lemma Message_create_at E s sender text :
  env_fault E (tick s) = None → truthy text = true →
  Message_create sender text E s
  = (mkStore (conversations s)
       (messages s ++ [Message.mk (next_message_id s) sender text
                         (env_clock E (tick s))])
       (next_conversation_id s) (S (next_message_id s)) (S (tick s)) (issued s)
       (journal s ++ [InsertMessage (next_message_id s)]),
     Ok (Message.mk (next_message_id s) sender text (env_clock E (tick s)))).
Proof.
  intros HE Ht. unfold Message_create.
  erewrite bind_ok; [|by apply storage_ok_at].
  by destruct text.
Qed.

Lemma Message_create_fault E s sender text detail :
  env_fault E (tick s) = Some detail →
  Message_create sender text E s
  = (set_tick (S (tick s)) s, Throw (Error detail)).
Proof.
  intros HE. unfold Message_create.
  erewrite bind_throw; [done|]. by apply storage_fault.
Qed.

Lemma Conversation_save_stored E s c v :
  env_fault E (tick s) = None →
  jsonb_in E (Conversation.lastMessages c) = Some v →
  (∀ m, Conversation.messagesId c = Some m →
        existsb (message_has_id m) (messages s) = true) →
  Conversation_save c E s
  = (mkStore
       (fmap (write_back (stored_as v c) (env_clock E (tick s))) (conversations s))
       (messages s) (next_conversation_id s) (next_message_id s) (S (tick s))
       (issued s) (journal s ++ [UpdateConversation (Conversation.id c)]),
     Ok tt).
Proof.
  intros HE Hv Hfk. unfold Conversation_save.
  erewrite bind_ok; [|by apply storage_ok_at]. m_unfold. rewrite Hv.
  destruct (Conversation.messagesId c) as [m|]; [|done].
  cbn [messages set_tick]. by rewrite (Hfk m).
Qed.

Lemma Conversation_save_refused E s c :
  env_fault E (tick s) = None →
  jsonb_in E (Conversation.lastMessages c) = None →
  Conversation_save c E s = (set_tick (S (tick s)) s, Throw (Error not_json)).
Proof.
  intros HE Hv. unfold Conversation_save.
  erewrite bind_ok; [|by apply storage_ok_at]. m_unfold. by rewrite Hv.
Qed.

Lemma existsb_message_last ms m :
  existsb (message_has_id (Message.id m)) (ms ++ [m]) = true.
Proof.
  rewrite existsb_app. simpl. unfold message_has_id at 2.
  rewrite Nat.eqb_refl. by destruct (existsb _ ms).
Qed.

(** [record_turn] for a question, without a storage failure: both
    messages are stored; then the answer is stored with the conversation
    and returned, or the database refuses it and [save] throws. *)
Lemma record_turn_run E s c sid q :
  fault_free E → q ≠ "" →
  record_turn c sid (Some q) E s
  = match jsonb_in E (turn_answer E s sid q) with
    | Some v =>
        (turn_store E s c sid q v, Ok (answered sid (turn_answer E s sid q)))
    | None =>
        (set_tick (4 + tick s) (asked_store E s sid q), Throw (Error not_json))
    end.
Proof.
  intros HE Hq. unfold record_turn. simpl js_optional.
  destruct s as [cs ms nc nm t iss jn].
  erewrite bind_ok.
  2:{ apply Message_create_at; [apply HE|]. simpl.
      by destruct (String.eqb_spec q ""). }
  erewrite bind_ok; [|apply ask_chatbot_run].
  cbn [tick set_tick conversations messages next_conversation_id
       next_message_id issued journal].
  set (answer := bot_answer (env_axios E (S t) externalApiUrl sid (Some q))).
  erewrite bind_ok.
  2:{ apply Message_create_at; [apply HE|apply bot_answer_truthy]. }
  cbn [tick set_tick conversations messages next_conversation_id
       next_message_id issued journal Message.id Message.message].
  unfold turn_answer. cbn [tick]. fold answer.
  destruct (jsonb_in E answer) as [v|] eqn:Hjson.
  - erewrite bind_ok.
    2:{ apply (Conversation_save_stored _ _ _ v); [apply HE|exact Hjson|].
        intros m [= <-]. cbn [messages].
        apply (existsb_message_last _ (Message.mk (S nm) bot answer _)). }
    m_unfold. unfold turn_store, asked_store, turn_answer, pointed_at, stored_as,
      answered.
    cbn [tick set_tick conversations messages next_conversation_id
         next_message_id issued journal Conversation.id Conversation.session_id
         Conversation.messagesId Conversation.createdAt Conversation.updatedAt].
    fold answer. rewrite <- !app_assoc. reflexivity.
  - erewrite bind_throw.
    2:{ apply Conversation_save_refused; [apply HE|exact Hjson]. }
    unfold asked_store, turn_answer, set_tick.
    cbn [tick set_tick conversations messages next_conversation_id
         next_message_id issued journal].
    fold answer. rewrite <- !app_assoc. reflexivity.
Qed.

(** ** Session resolution *)



Lemma existsb_session_is u cs :
  u ∉ Conversation.session_id <$> cs → existsb (session_is u) cs = false.
Proof.
  induction cs as [|r cs IH]; simpl; [done|]. intros H.
  rewrite not_elem_of_cons in H. destruct H as [Hne H].
  rewrite (IH H). unfold session_is.
  destruct (String.eqb_spec (Conversation.session_id r) u); [congruence|done].
Qed.


Lemma Conversation_create_at E s sid u :
  env_fault E (tick s) = None → uuid_in sid = Some u →
  existsb (session_is u) (conversations s) = false →
  Conversation_create sid E s
  = (created_store E s u,
     Ok (Conversation.mk (next_conversation_id s) sid None JNull
           (env_clock E (tick s)) (env_clock E (tick s)))).
Proof.
  intros HE Hu Hx. unfold Conversation_create.
  erewrite bind_ok; [|by apply storage_ok_at].
  rewrite Hu. m_unfold. simpl. by rewrite Hx.
Qed.

Lemma uuidv4_run E s : uuidv4 E s = (drew_store E s, Ok (env_uuid E (tick s))).
Proof. done. Qed.

(** ** What [sendQuestion] computes without a storage failure, by session
    case *)



Lemma sendQuestion_generates E s ctx payload :
  fault_free E →
  validate ctx E s = (s, Ok payload) →
  sessionId payload = None →
  env_uuid E (tick s) ∉ sessions s →
  let u := env_uuid E (tick s) in
  sendQuestion ctx E s
  = turn_outcome E (created_store E (drew_store E s) u)
      (blank_conversation (next_conversation_id s) u (env_clock E (S (tick s))))
      u (question payload).
Proof.
  intros HE Hv Hsid Hfresh u.
  destruct (validate_ok _ _ _ _ _ Hv) as (Hr & Hq & _ & Hp).
  unfold sendQuestion, sendQuestion_try, try_catch.
  erewrite bind_ok; [|exact Hr]. cbn [v_question v_sessionId].
  unfold resolve_conversation. rewrite Hsid. simpl provided. cbv iota.
  erewrite bind_ok.
  2:{ erewrite bind_ok; [|apply uuidv4_run].
      erewrite bind_ok; [done|].
      apply Conversation_create_at; [apply HE|apply env_uuid_canonical|].
      by apply existsb_session_is. }
  cbv beta iota. rewrite record_turn_run by done.
  unfold turn_outcome. by destruct (jsonb_in E _).
Qed.

(** ** Well-formed stores *)

Lemma resolves_sound ms c m :
  resolves ms c = true → Conversation.messagesId c = Some m →
  ∃ msg, msg ∈ ms ∧ Message.id msg = m.
Proof.
  unfold resolves. intros H Hm. rewrite Hm in H.
  apply existsb_exists in H as (msg & Hin & Hid).
  exists msg. split; [by apply list_elem_of_In|]. by apply Nat.eqb_eq.
Qed.

Lemma store_wfb_sound s : store_wfb s = true → store_wf s.
Proof.
  unfold store_wfb. rewrite !andb_true_iff.
  intros [[[[[H1 H2] H3] H4] H5] H6].
  rewrite forallb_forall in H2, H4, H6.
  split.
  - by apply bool_decide_eq_true in H1.
  - intros c Hc. apply Nat.ltb_lt, H2. by apply list_elem_of_In.
  - by apply bool_decide_eq_true in H3.
  - intros m Hm. apply Nat.ltb_lt, H4. by apply list_elem_of_In.
  - by apply bool_decide_eq_true in H5.
  - intros c m Hc Hm. eapply resolves_sound; [|done].
    apply H6. by apply list_elem_of_In.
Qed.

(** ** The answer of [sendQuestion] *)


Lemma saved_rows E c botMessage now (cs : list Conversation.t) :
  match jsonb_in E (Message.message botMessage) with
  | Some v =>
      fmap (write_back (pointed_at c (Message.id botMessage) v now) now) cs
  | None => cs
  end
  = fmap (λ row, if has_id (Conversation.id c) row
                 then saved_row E row botMessage now else row) cs.
Proof.
  unfold saved_row.
  destruct (jsonb_in E (Message.message botMessage)) as [v|].
  - apply list_fmap_ext. intros i row _. unfold write_back. simpl.
    by destruct (has_id (Conversation.id c) row).
  - rewrite <- (list_fmap_id cs) at 1. apply list_fmap_ext. intros i row _.
    simpl. by destruct (has_id (Conversation.id c) row).
Qed.

Lemma turn_outcome_shape E s c sid q :
  ∃ s' botMessage,
    turn_outcome E s c sid q = (s', Ok (turn_response E sid botMessage)) ∧
    tick s' = 4 + tick s ∧
    messages s'
    = messages s ++ [Message.mk (next_message_id s) user (JStr q)
                       (env_clock E (tick s)); botMessage] ∧
    botMessage = Message.mk (S (next_message_id s)) bot (turn_answer E s sid q)
                   (env_clock E (2 + tick s)) ∧
    issued s' = issued s ∧
    conversations s'
    = fmap (λ row, if has_id (Conversation.id c) row
                   then saved_row E row botMessage (env_clock E (3 + tick s))
                   else row) (conversations s) ∧
    journal s'
    = journal s
      ++ [InsertMessage (next_message_id s); InsertMessage (S (next_message_id s))]
      ++ match jsonb_in E (Message.message botMessage) with
         | Some _ => [UpdateConversation (Conversation.id c)]
         | None => []
         end.
Proof.
  pose proof (saved_rows E c
                (Message.mk (S (next_message_id s)) bot (turn_answer E s sid q)
                   (env_clock E (2 + tick s)))
                (env_clock E (3 + tick s)) (conversations s)) as Hrows.
  cbn [Message.message Message.id] in Hrows.
  unfold turn_outcome, turn_response.
  destruct (jsonb_in E (turn_answer E s sid q)) as [v|] eqn:Hv;
    eexists _, (Message.mk (S (next_message_id s)) bot (turn_answer E s sid q)
                  (env_clock E (2 + tick s)));
    rewrite <- Hrows; cbn [Message.message Message.id]; rewrite Hv;
    (split; [reflexivity|]); simpl; rewrite <- ?app_assoc; simpl;
    by rewrite ?app_nil_r.
Qed.





Lemma fmap_at_last (f : Conversation.t → Conversation.t) i
    (cs : list Conversation.t) c :
  (∀ r, r ∈ cs → Conversation.id r < i) → Conversation.id c = i →
  fmap (λ row, if has_id i row then f row else row) (cs ++ [c]) = cs ++ [f c].
Proof.
  intros Hlt <-. rewrite fmap_app. csimpl. unfold has_id at 2.
  rewrite Nat.eqb_refl. f_equal.
  rewrite <- (list_fmap_id cs) at 2. apply list_fmap_ext. intros i r Hr.
  apply list_elem_of_lookup_2 in Hr. specialize (Hlt r Hr). unfold has_id. simpl.
  destruct (Nat.eqb_spec (Conversation.id r) (Conversation.id c)); [lia|done].
Qed.


(** C6 on the code.  For a valid question without a session id, served
    without a storage failure, a UUID is drawn and one conversation row
    under it and two message rows (the user's with the question, the
    bot's with the answer) are inserted.  The response carries the UUID
    only when the database takes the answer for the [jsonb] column: when it
    does not, [save] throws after the three inserts, the rows stay, the
    conversation without a last message, and the response is 500 without
    a session id.  (Nothing is said of the UUID being new: [uuidv4] is
    the environment's.) *)
Theorem sendQuestion_new_session_rows E s ctx payload :
  fault_free E → store_wf s →
  validate ctx E s = (s, Ok payload) →
  sessionId payload = None →
  env_uuid E (tick s) ∉ sessions s →
  ∃ s' c userMessage botMessage now,
    sendQuestion ctx E s
    = (s', Ok match jsonb_in E (Message.message botMessage) with
              | Some _ =>
                  mkResponse 200
                    (AnswerBody (env_uuid E (tick s)) (Message.message botMessage))
              | None =>
                  mkResponse 500
                    (FailureBody "An unexpected error occurred." not_json)
              end) ∧
    issued s' = issued s ++ [env_uuid E (tick s)] ∧
    Conversation.session_id c = env_uuid E (tick s) ∧
    Conversation.messagesId c = None ∧
    conversations s' = conversations s ++ [saved_row E c botMessage now] ∧
    messages s' = messages s ++ [userMessage; botMessage] ∧
    Message.senderType userMessage = user ∧
    Message.message userMessage = JStr (question payload) ∧
    Message.senderType botMessage = bot ∧
    journal s'
    = journal s
      ++ [InsertConversation (Conversation.id c);
          InsertMessage (Message.id userMessage);
          InsertMessage (Message.id botMessage)]
      ++ match jsonb_in E (Message.message botMessage) with
         | Some _ => [UpdateConversation (Conversation.id c)]
         | None => []
         end.
Proof.
  intros HE Hwf Hv Hsid Hfresh.
  rewrite (sendQuestion_generates E s ctx payload) by auto.
  edestruct turn_outcome_shape
    as (s' & b & -> & _ & Hms & Hb & Hiss & Hcs & Hjn).
  exists s',
    (blank_conversation (next_conversation_id s) (env_uuid E (tick s))
       (env_clock E (S (tick s)))),
    (Message.mk (next_message_id s) user (JStr (question payload))
       (env_clock E (S (S (tick s))))),
    b, (env_clock E (5 + tick s)).
  split; [reflexivity|]. split; [done|]. do 2 (split; [done|]).
  split.
  { rewrite Hcs. simpl conversations. apply fmap_at_last; [|done].
    intros r Hr. by apply (wf_conversation_seq _ Hwf). }
  split; [exact Hms|]. do 2 (split; [done|]). split; [by rewrite Hb|].
  rewrite Hjn, Hb. simpl. by rewrite <- app_assoc.
Qed.

(** ** The two reads *)

Lemma preload_lastMessage_throws E s :
  preload_lastMessage E s = (s, Throw (Error missing_attribute)).
Proof. reflexivity. Qed.

Lemma Conversation_paginate_throws matching page limit E s :
  Conversation_paginate matching page limit E s
  = (s, Throw (Error missing_attribute)).
Proof.
  unfold Conversation_paginate.
  erewrite bind_throw; [|apply preload_lastMessage_throws]. reflexivity.
Qed.

Lemma Conversation_first_throws matching E s :
  Conversation_first_with_lastMessage matching E s
  = (s, Throw (Error missing_attribute)).
Proof.
  unfold Conversation_first_with_lastMessage.
  erewrite bind_throw; [|apply preload_lastMessage_throws]. reflexivity.
Qed.

(** C9 on the code.  The listing never reaches the database: its query
    is built with [preload('lastMessage')], the relation names the column
    [messages_id] where the model's attribute is [messagesId], and booting
    it throws.  Whatever the page, the page size and the filter, the
    response is 500 and the store is untouched. *)
Theorem getAllConversations_fails_at_preload ctx E s :
  getAllConversations ctx E s
  = (s, Ok (mkResponse 500
              (FailureBody "Failed to retrieve conversations." missing_attribute))).
Proof.
  unfold getAllConversations, getAllConversations_try, try_catch.
  erewrite bind_throw.
  2:{ apply Conversation_paginate_throws. }
  reflexivity.
Qed.

(** C7 on the code.  The lookup fails the same way for every parameter,
    a stored conversation's primary id and its session id alike: the
    response is 500 both times, and the conversation is returned by
    neither. *)
Theorem getConversationMessages_fails_at_preload ctx E s :
  getConversationMessages ctx E s
  = (s, Ok (mkResponse 500
              (FailureBody "Failed to retrieve conversation details."
                 missing_attribute))).
Proof.
  unfold getConversationMessages, getConversationMessages_try, try_catch.
  erewrite bind_throw.
  2:{ destruct (isUUID _); apply Conversation_first_throws. }
  reflexivity.
Qed.
(** ** Deleting *)

Lemma integer_key_run E s k i :
  parse_nat k = Some i → integer_key (Some k) E s = (s, Ok (Z.of_nat i)).
Proof.
  intros H. destruct (parse_nat_int _ _ H) as [Hp Hr].
  unfold integer_key. by rewrite Hp, Hr.
Qed.

Lemma find_has_key i (cs : list Conversation.t) :
  find (has_key (Z.of_nat i)) cs = find (has_id i) cs.
Proof.
  induction cs as [|r cs IH]; simpl; [done|]. rewrite IH.
  unfold has_key, has_id.
  by destruct (Z.eqb_spec (Z.of_nat (Conversation.id r)) (Z.of_nat i)),
              (Nat.eqb_spec (Conversation.id r) i); try lia.
Qed.

Lemma find_message_has_key i (ms : list Message.t) :
  find (message_has_key (Z.of_nat i)) ms = find (message_has_id i) ms.
Proof.
  induction ms as [|r ms IH]; simpl; [done|]. rewrite IH.
  unfold message_has_key, message_has_id.
  by destruct (Z.eqb_spec (Z.of_nat (Message.id r)) (Z.of_nat i)),
              (Nat.eqb_spec (Message.id r) i); try lia.
Qed.

Section Keyed.
Context {A : Type} (key : A → nat).

Lemma find_key (l : list A) a :
  NoDup (key <$> l) → a ∈ l →
  find (λ r, Nat.eqb (key r) (key a)) l = Some a.
Proof.
  induction l as [|r l IH]; simpl; intros Hnd Hin; [by apply elem_of_nil in Hin|].
  apply NoDup_cons in Hnd as [Hnotin Hnd].
  destruct (Nat.eqb_spec (key r) (key a)) as [He|Hne].
  - apply elem_of_cons in Hin as [->|Hin]; [done|].
    exfalso. apply Hnotin. rewrite He. by apply list_elem_of_fmap_2.
  - apply elem_of_cons in Hin as [->|Hin]; [done|]. by apply IH.
Qed.

Lemma key_inj (l : list A) a b :
  NoDup (key <$> l) → a ∈ l → b ∈ l → key a = key b → a = b.
Proof.
  intros Hnd Ha Hb He.
  pose proof (find_key l a Hnd Ha) as H1.
  pose proof (find_key l b Hnd Hb) as H2.
  rewrite He in H1. congruence.
Qed.

Lemma filter_key_keeps i (l : list A) :
  i ∉ key <$> l → filter (λ r, Nat.eqb (key r) i = false) l = l.
Proof.
  induction l as [|r l IH]; [done|]. rewrite fmap_cons, not_elem_of_cons.
  intros [Hne Hnotin]. rewrite filter_cons_True.
  - by rewrite IH.
  - by apply Nat.eqb_neq.
Qed.

Lemma filter_key_drops (before after : list A) a :
  NoDup (key <$> before ++ a :: after) →
  filter (λ r, Nat.eqb (key r) (key a) = false) (before ++ a :: after)
  = before ++ after.
Proof.
  rewrite fmap_app, fmap_cons. intros Hnd.
  apply NoDup_app in Hnd as (_ & Hdisj & Hnd).
  apply NoDup_cons in Hnd as [Hnotin _].
  rewrite filter_app, filter_cons_False.
  - rewrite !filter_key_keeps; [done|done|].
    intros Hin. apply (Hdisj _ Hin). left.
  - rewrite Nat.eqb_refl. done.
Qed.
End Keyed.

Lemma find_has_id (cs : list Conversation.t) c :
  NoDup (Conversation.id <$> cs) → c ∈ cs →
  find (has_id (Conversation.id c)) cs = Some c.
Proof. exact (find_key Conversation.id cs c). Qed.

Lemma filter_drops_row (before after : list Conversation.t) c :
  NoDup (Conversation.id <$> before ++ c :: after) →
  filter (λ r, has_id (Conversation.id c) r = false) (before ++ c :: after)
  = before ++ after.
Proof. exact (filter_key_drops Conversation.id before after c). Qed.

(** C8.  Deleting an existing conversation by its id, without a storage
    failure, answers 204, removes exactly that row and leaves every other
    conversation row and every message row as it was. *)
Theorem deleteConversation_removes_only_that_row E s ctx k c :
  fault_free E → store_wf s →
  params ctx !! "id" = Some k →
  parse_nat k = Some (Conversation.id c) →
  c ∈ conversations s →
  ∃ s' before after,
    deleteConversation ctx E s = (s', Ok (mkResponse 204 NoBody)) ∧
    conversations s = before ++ c :: after ∧
    conversations s' = before ++ after ∧
    messages s' = messages s ∧
    journal s' = journal s ++ [DeleteConversation (Conversation.id c)].
Proof.
  intros HE Hwf Hk Hparse Hin.
  pose proof (wf_conversation_ids _ Hwf) as Hnd.
  destruct (list_elem_of_split _ _ Hin) as (before & after & Hcs).
  unfold deleteConversation, deleteConversation_try, try_catch.
  rewrite Hk.
  erewrite bind_ok.
  2:{ unfold Conversation_find.
      erewrite bind_ok; [|by apply storage_run].
      erewrite bind_ok; [|by apply integer_key_run]. m_unfold. simpl.
      rewrite find_has_key, (find_has_id _ c Hnd Hin). reflexivity. }
  unfold Conversation_delete.
  erewrite bind_ok.
  2:{ erewrite bind_ok; [|by apply storage_run]. m_unfold. reflexivity. }
  m_unfold. simpl.
  eexists _, before, after. split; [reflexivity|]. simpl.
  split; [done|]. split; [|done].
  rewrite Hcs in Hnd |- *. by apply filter_drops_row.
Qed.

Lemma Forall2_impl_elem {A B} (R R' : A → B → Prop) l l' :
  Forall2 R l l' → (∀ x y, x ∈ l → R x y → R' x y) → Forall2 R' l l'.
Proof.
  induction 1 as [|x y l l' HR _ IH]; intros Himp; constructor.
  - apply Himp; [left|done].
  - apply IH. intros a b Ha. apply Himp. by right.
Qed.

Lemma Forall2_refl_on {A} (R : A → A → Prop) (l : list A) :
  (∀ x, R x x) → Forall2 R l l.
Proof. intros H. induction l; constructor; auto. Qed.

Lemma Conversation_save_cleared_run E s conv :
  fault_free E →
  Conversation_save
    (Conversation.mk (Conversation.id conv) (Conversation.session_id conv)
       None JNull (Conversation.createdAt conv) (Conversation.updatedAt conv)) E s
  = (mkStore
       (fmap (write_back
               (Conversation.mk (Conversation.id conv) (Conversation.session_id conv)
                  None JNull (Conversation.createdAt conv)
                  (Conversation.updatedAt conv))
               (env_clock E (tick s))) (conversations s))
       (messages s) (next_conversation_id s) (next_message_id s) (S (tick s))
       (issued s) (journal s ++ [UpdateConversation (Conversation.id conv)]),
     Ok tt).
Proof.
  intros HE. by rewrite (Conversation_save_stored E s _ JNull).
Qed.

Lemma cleared_among_step conv now rest r r' :
  cleared_among rest
    (write_back
       (Conversation.mk (Conversation.id conv) (Conversation.session_id conv)
          None JNull (Conversation.createdAt conv) (Conversation.updatedAt conv))
       now r) r' →
  cleared_among (Conversation.id conv :: rest) r r'.
Proof.
  unfold cleared_among, write_back, has_id. simpl.
  destruct (Nat.eqb_spec (Conversation.id r) (Conversation.id conv)) as [He|Hne];
    simpl; intros (H1 & H2 & H3 & H4); do 3 (split; [done|]).
  - case_bool_decide as Hin; case_bool_decide as Hin'; try done.
    + exfalso. apply Hin'. rewrite He. left.
    + by subst r'.
    + exfalso. apply Hin'. rewrite He. left.
  - case_bool_decide as Hin; case_bool_decide as Hin'; try done.
    + exfalso. apply Hin'. by right.
    + exfalso. apply elem_of_cons in Hin' as [?|?]; done.
Qed.

(** The loop saves each conversation it was given, in order, and touches
    nothing else. *)
Lemma clear_each_run E l :
  fault_free E →
  ∀ s, ∃ cs',
    clear_each l E s
    = (mkStore cs' (messages s) (next_conversation_id s) (next_message_id s)
         (List.length l + tick s) (issued s)
         (journal s ++ (UpdateConversation ∘ Conversation.id <$> l)),
       Ok tt) ∧
    Forall2 (cleared_among (Conversation.id <$> l)) (conversations s) cs'.
Proof.
  intros HE. induction l as [|conv rest IH]; intros s.
  - exists (conversations s). split.
    + destruct s. simpl. by rewrite app_nil_r.
    + apply Forall2_refl_on. intros r. unfold cleared_among.
      case_bool_decide as Hin; [by apply elem_of_nil in Hin|done].
  - simpl clear_each.
    erewrite bind_ok; [|by apply Conversation_save_cleared_run].
    cbv beta. edestruct IH as (cs' & Hrun & Hrel). rewrite Hrun. simpl.
    exists cs'. split.
    + rewrite <- app_assoc. simpl. by rewrite Nat.add_succ_r.
    + simpl in Hrel. rewrite Forall2_fmap_l in Hrel.
      eapply Forall2_impl; [exact Hrel|]. intros r r'. apply cleared_among_step.
Qed.

Lemma referring_ids mid (cs : list Conversation.t) r :
  NoDup (Conversation.id <$> cs) → r ∈ cs →
  Conversation.id r
    ∈ Conversation.id <$> filter (λ c, refers_to mid c = true) cs ↔
  refers_to mid r = true.
Proof.
  intros Hnd Hr. split.
  - intros Hin. apply list_elem_of_fmap in Hin as (c & He & Hc).
    apply list_elem_of_filter in Hc as [Hrefers Hc].
    by rewrite (key_inj Conversation.id cs r c Hnd Hr Hc He).
  - intros Hrefers. apply list_elem_of_fmap_2. by apply list_elem_of_filter.
Qed.

Lemma cleared_rows_do_not_refer mid (cs cs' : list Conversation.t) :
  Forall2 (cleared_if_referring mid) cs cs' → set_null mid <$> cs' = cs'.
Proof.
  induction 1 as [|r r' cs cs' (_ & _ & _ & Hr) _ IH]; csimpl; [done|].
  rewrite IH. f_equal. unfold set_null.
  destruct (refers_to mid r) eqn:Hrefers.
  - destruct Hr as [Hnone _]. unfold refers_to. by rewrite Hnone.
  - subst r'. by rewrite Hrefers.
Qed.

Lemma cleared_rows_keep_integrity mid (cs cs' : list Conversation.t) ms :
  Forall2 (cleared_if_referring mid) cs cs' →
  ref_integrity cs ms →
  ref_integrity cs' (filter (λ m, message_has_id mid m = false) ms).
Proof.
  intros Hrel Hint c' m Hc' Hm.
  apply list_elem_of_lookup in Hc' as [i Hi].
  destruct (Forall2_lookup_r _ _ _ _ _ Hrel Hi) as (c & Hc & _ & _ & _ & Hcase).
  destruct (refers_to mid c) eqn:Hrefers.
  - destruct Hcase as [Hnone _]. congruence.
  - subst c'. destruct (Hint c m) as (msg & Hmsg & Hid);
      [by eapply list_elem_of_lookup_2|done|].
    exists msg. split; [|done]. apply list_elem_of_filter. split; [|done].
    unfold message_has_id. rewrite Hid. apply Nat.eqb_neq. intros ->.
    unfold refers_to in Hrefers. rewrite Hm, Nat.eqb_refl in Hrefers. done.
Qed.

(** C3.  Deleting an existing message, without a storage failure,
    answers 204; every conversation whose last-message reference was that
    message is saved with the reference and the cached text null before
    the message row is deleted; every conversation row is still there, the
    others unchanged; and afterwards every non-null reference names a
    stored message. *)
Theorem deleteMessage_clears_references_first E s ctx k message :
  fault_free E → store_wf s →
  params ctx !! "id" = Some k →
  parse_nat k = Some (Message.id message) →
  message ∈ messages s →
  ∃ s' before after,
    deleteMessage ctx E s = (s', Ok (mkResponse 204 NoBody)) ∧
    messages s = before ++ message :: after ∧
    messages s' = before ++ after ∧
    Forall2 (cleared_if_referring (Message.id message))
      (conversations s) (conversations s') ∧
    journal s'
    = journal s
      ++ (UpdateConversation ∘ Conversation.id
            <$> filter (λ c, refers_to (Message.id message) c = true)
                  (conversations s))
      ++ [DeleteMessage (Message.id message)] ∧
    ref_integrity (conversations s') (messages s').
Proof.
  intros HE Hwf Hk Hparse Hin.
  pose proof (wf_message_ids _ Hwf) as Hnd.
  pose proof (wf_conversation_ids _ Hwf) as Hndc.
  pose proof (wf_references _ Hwf) as Hrefs.
  destruct (list_elem_of_split _ _ Hin) as (before & after & Hms).
  destruct s as [cs ms nc nm t iss jn]. simpl in *.
  unfold deleteMessage, deleteMessage_try, try_catch. rewrite Hk.
  erewrite bind_ok.
  2:{ unfold Message_find.
      erewrite bind_ok; [|by apply storage_run].
      erewrite bind_ok; [|by apply integer_key_run]. m_unfold. simpl.
      rewrite find_message_has_key. unfold message_has_id.
      rewrite (find_key Message.id _ message Hnd Hin). reflexivity. }
  cbv beta iota.
  set (mid := Message.id message) in *.
  set (l := filter (λ c, refers_to mid c = true) cs).
  erewrite bind_ok.
  2:{ unfold Conversation_where_messages_id.
      erewrite bind_ok; [|by apply storage_run]. m_unfold. reflexivity. }
  destruct (clear_each_run E l HE (mkStore cs ms nc nm (S (S t)) iss jn))
    as (cs' & Hloop & Hrel).
  simpl in Hloop, Hrel.
  erewrite bind_ok; [|exact Hloop].
  assert (Forall2 (cleared_if_referring mid) cs cs') as Hrel'.
  { eapply Forall2_impl_elem; [exact Hrel|].
    intros r r' Hr (H1 & H2 & H3 & H4). do 3 (split; [done|]).
    pose proof (referring_ids mid _ r Hndc Hr) as Hiff. fold l in Hiff.
    case_bool_decide as Hd.
    - by rewrite (proj1 Hiff Hd).
    - destruct (refers_to mid r); [|done]. exfalso. by apply Hd, Hiff. }
  unfold Message_delete.
  erewrite bind_ok.
  2:{ erewrite bind_ok; [|by apply storage_run]. m_unfold. reflexivity. }
  m_unfold. unfold set_tables, set_tick.
  cbn [conversations messages journal tick issued next_conversation_id
       next_message_id].
  fold mid. rewrite (cleared_rows_do_not_refer mid _ _ Hrel').
  eexists _, before, after. split; [reflexivity|].
  cbn [conversations messages journal tick issued next_conversation_id
       next_message_id].
  assert (filter (λ r, message_has_id mid r = false) ms = before ++ after)
    as Hfilter.
  { rewrite Hms in Hnd |- *. unfold message_has_id, mid.
    by apply (filter_key_drops Message.id). }
  split; [done|]. split; [done|]. split; [done|].
  split; [by rewrite <- app_assoc|].
  by apply (cleared_rows_keep_integrity mid _ _ _ Hrel').
Qed.

(** ** Failures *)

(** C4 as the controller has it.  When the [try] block of any of the five
    operations throws an error that is not a validation error, the
    response is HTTP 500 and its body carries the operation's fixed
    message together with the thrown error's own message. *)
Theorem internal_failure_reports_error_message op ctx E s s' detail :
  operation_try op ctx E s = (s', Throw (Error detail)) →
  operation op ctx E s
  = (s', Ok (mkResponse 500 (FailureBody (generic_message op) detail))).
Proof.
  intros H. destruct op; simpl in *;
    unfold sendQuestion, getAllConversations, getConversationMessages,
      deleteConversation, deleteMessage, try_catch;
    by rewrite H.
Qed.

(** ** The route of [GET /conversation/:id_or_uuid] *)

(** C5 on the code.  Whatever the path segment, the request is routed to
    the binding [ConversationsController.getConversationById], a method
    the controller does not define, so no lookup runs; and the parameter
    the route binds is [id_or_uuid], not the [id] that
    [getConversationMessages] reads. *)
Theorem getConversation_route_is_unbound idOrUuid qs reqBody :
  dispatch (mkRequest GET ["conversation"; idOrUuid] qs reqBody)
  = MissingMethod "ConversationsController" "getConversationById" ∧
  ConversationsController "getConversationById" = None ∧
  ∃ ps,
    match_pattern [Lit "conversation"; Param "id_or_uuid"]
      ["conversation"; idOrUuid] = Some ps ∧
    ps !! "id" = None ∧ ps !! "id_or_uuid" = Some idOrUuid.
Proof.
  split; [reflexivity|]. split; [reflexivity|].
  eexists. split; [reflexivity|].
  split; [by rewrite lookup_insert_ne|by rewrite lookup_insert_eq].
Qed.

(** Run under the parameters the route binds, the handler never sees
    the path segment: whatever was asked for, the response is the same,
    and it is never a conversation. *)
Lemma getConversationMessages_ignores_path_segment E s qs reqBody byId byUuid :
  let ask v := getConversationMessages (mkContext reqBody qs {[ "id_or_uuid" := v ]}) in
  ask byId E s = ask byUuid E s ∧
  ∀ c, (ask byId E s).2 ≠ Ok (response.ok (ConversationBody c)).
Proof.
  intros ask. unfold ask, getConversationMessages, getConversationMessages_try,
    try_catch. simpl.
  rewrite !lookup_singleton_ne by done. simpl.
  split; [reflexivity|]. intros c. discriminate.
Qed.

(** The other four routes name methods the controller defines, and bind
    the parameter the method reads. *)
Lemma routes_resolve qs reqBody k :
  dispatch (mkRequest POST ["questions"] qs reqBody)
  = Handled (sendQuestion (mkContext reqBody qs ∅)) ∧
  dispatch (mkRequest GET ["conversation"] qs reqBody)
  = Handled (getAllConversations (mkContext reqBody qs ∅)) ∧
  dispatch (mkRequest DELETE ["conversation"; k] qs reqBody)
  = Handled (deleteConversation (mkContext reqBody qs {[ "id" := k ]})) ∧
  dispatch (mkRequest DELETE ["message"; k] qs reqBody)
  = Handled (deleteMessage (mkContext reqBody qs {[ "id" := k ]})).
Proof. repeat split; reflexivity. Qed.

(** ** The schema's guarantees hold in every store the handlers reach *)

(** Runs one ORM call on a symbolic store and splits on how it can end. *)
Ltac run_prim :=
  unfold Conversation_findBy_session_id, Conversation_create, Message_create,
    Conversation_save, Conversation_find, Message_find,
    Conversation_where_messages_id, Conversation_delete, Message_delete,
    Conversation_first_with_lastMessage, Conversation_paginate, integer_key,
    preload_lastMessage, uuidv4, axios_post, storage;
  m_unfold; simpl;
  repeat match goal with
         | |- context [match ?x with _ => _ end] =>
             lazymatch x with
             | (_, _) => fail
             | context [match _ with _ => _ end] => fail
             | _ => destruct x eqn:?; simpl
             end
         end;
  intros [= <- _].

Ltac run_call := intros ? ? ? ?; run_prim.

Lemma preserves_ret {A} (a : A) : preserves (mret a).
Proof. intros E s s' r Hwf [= <- _]. done. Qed.

Lemma preserves_throw {A} e : preserves (@throw A e).
Proof. intros E s s' r Hwf [= <- _]. done. Qed.

Lemma preserves_bind {A B} (m : M A) (k : A → M B) :
  preserves m → (∀ a, preserves (k a)) → preserves (m ≫= k).
Proof.
  intros Hm Hk E s s' r Hwf. m_unfold.
  destruct (m E s) as [s1 [a|e]] eqn:Hrun.
  - apply (Hk a). by eapply Hm.
  - intros [= <- _]. by eapply Hm.
Qed.

Lemma preserves_try_catch {A} (m : M A) (h : JsError → M A) :
  preserves m → (∀ e, preserves (h e)) → preserves (try_catch m h).
Proof.
  intros Hm Hh E s s' r Hwf. unfold try_catch.
  destruct (m E s) as [s1 [a|e]] eqn:Hrun.
  - intros [= <- _]. by eapply Hm.
  - apply (Hh e). by eapply Hm.
Qed.

Lemma store_wf_later (s : Store) nc nm n iss :
  store_wf s →
  (next_conversation_id s ≤ nc)%nat → (next_message_id s ≤ nm)%nat →
  store_wf (mkStore (conversations s) (messages s) nc nm n iss (journal s)).
Proof.
  intros [H1 H2 H3 H4 H5 H6] Hc Hm. split; simpl; try done.
  - intros c Hin. specialize (H2 c Hin). lia.
  - intros m Hin. specialize (H4 m Hin). lia.
Qed.

Lemma store_wf_clock (s : Store) n iss :
  store_wf s →
  store_wf (mkStore (conversations s) (messages s) (next_conversation_id s)
              (next_message_id s) n iss (journal s)).
Proof. intros Hwf. by apply store_wf_later. Qed.

Lemma preserves_storage : preserves storage.
Proof.
  intros E s s' r Hwf. unfold storage. m_unfold. simpl.
  destruct (env_fault E (tick s)); intros [= <- _]; by apply store_wf_clock.
Qed.

Lemma preserves_uuidv4 : preserves uuidv4.
Proof. intros E s s' r Hwf [= <- _]. by apply store_wf_clock. Qed.

Lemma preserves_axios_post url sid q : preserves (axios_post url sid q).
Proof. intros E s s' r Hwf [= <- _]. by apply store_wf_clock. Qed.

Lemma preserves_get_store : preserves get_store.
Proof. intros E s s' r Hwf [= <- _]. done. Qed.

Lemma preserves_ask_env : preserves ask_env.
Proof. intros E s s' r Hwf [= <- _]. done. Qed.

Lemma preserves_integer_key key : preserves (integer_key key).
Proof. intros E s s' r Hwf. run_prim; done. Qed.

Lemma preserves_preload : preserves preload_lastMessage.
Proof. intros E s s' r Hwf. run_prim; done. Qed.

Lemma existsb_session_is_false u (cs : list Conversation.t) :
  existsb (session_is u) cs = false → u ∉ Conversation.session_id <$> cs.
Proof.
  induction cs as [|r cs IH]; csimpl; [intros _; apply not_elem_of_nil|].
  rewrite orb_false_iff. intros [Hr Hcs]. apply not_elem_of_cons. split; [|auto].
  intros ->. unfold session_is in Hr. by rewrite String.eqb_refl in Hr.
Qed.

Lemma ref_integrity_more_messages cs ms extra :
  ref_integrity cs ms → ref_integrity cs (ms ++ extra).
Proof.
  intros H c m Hc Hm. destruct (H c m Hc Hm) as (msg & Hin & Hid).
  exists msg. split; [|done]. apply elem_of_app. by left.
Qed.

Lemma store_wf_inserted_conversation (s : Store) u now n w :
  store_wf s → u ∉ sessions s →
  store_wf (mkStore
              (conversations s ++ [blank_conversation (next_conversation_id s) u now])
              (messages s) (S (next_conversation_id s)) (next_message_id s) n
              (issued s) w).
Proof.
  intros [H1 H2 H3 H4 H5 H6] Hu. split; simpl.
  - rewrite fmap_app. apply NoDup_app. split; [done|]. split; [|apply NoDup_singleton].
    intros i Hi Hi'. apply list_elem_of_singleton in Hi'. simpl in Hi'. subst i.
    apply list_elem_of_fmap in Hi as (c & He & Hc). specialize (H2 c Hc). lia.
  - intros c Hc. apply elem_of_app in Hc as [Hc|Hc].
    + specialize (H2 c Hc). lia.
    + apply list_elem_of_singleton in Hc. subst c. simpl. lia.
  - done.
  - done.
  - unfold sessions. simpl. rewrite fmap_app. apply NoDup_app.
    split; [done|]. split; [|apply NoDup_singleton].
    intros u' Hu' Hu''. apply list_elem_of_singleton in Hu''. by subst u'.
  - intros c m Hc Hm. apply elem_of_app in Hc as [Hc|Hc]; [by eapply H6|].
    apply list_elem_of_singleton in Hc. subst c. discriminate Hm.
Qed.

Lemma preserves_Conversation_create sid : preserves (Conversation_create sid).
Proof.
  intros E s s' r Hwf. run_prim; unfold set_tick; simpl;
    try (by apply store_wf_clock); try (apply store_wf_later; [done|lia|lia]).
  apply store_wf_inserted_conversation; [done|].
  by apply existsb_session_is_false.
Qed.

Lemma store_wf_inserted_message (s : Store) sender text now n w :
  store_wf s →
  store_wf (mkStore (conversations s)
              (messages s ++ [Message.mk (next_message_id s) sender text now])
              (next_conversation_id s) (S (next_message_id s)) n (issued s) w).
Proof.
  intros [H1 H2 H3 H4 H5 H6]. split; simpl; try done.
  - rewrite fmap_app. apply NoDup_app. split; [done|]. split; [|apply NoDup_singleton].
    intros i Hi Hi'. apply list_elem_of_singleton in Hi'. simpl in Hi'. subst i.
    apply list_elem_of_fmap in Hi as (m & He & Hm). specialize (H4 m Hm). lia.
  - intros m Hm. apply elem_of_app in Hm as [Hm|Hm].
    + specialize (H4 m Hm). lia.
    + apply list_elem_of_singleton in Hm. subst m. simpl. lia.
  - by apply ref_integrity_more_messages.
Qed.

Lemma preserves_Message_create sender text : preserves (Message_create sender text).
Proof.
  intros E s s' r Hwf. run_prim; unfold set_tick; simpl;
    try (by apply store_wf_clock); try (apply store_wf_later; [done|lia|lia]);
    by apply store_wf_inserted_message.
Qed.

Lemma write_back_keeps_keys p now (cs : list Conversation.t) :
  Conversation.id <$> (write_back p now <$> cs) = Conversation.id <$> cs ∧
  Conversation.session_id <$> (write_back p now <$> cs)
  = Conversation.session_id <$> cs.
Proof.
  rewrite <- !list_fmap_compose.
  split; apply list_fmap_ext; intros i r _; unfold write_back; simpl;
    by destruct (has_id (Conversation.id p) r).
Qed.

Lemma set_null_keeps_keys mid (cs : list Conversation.t) :
  Conversation.id <$> (set_null mid <$> cs) = Conversation.id <$> cs ∧
  Conversation.session_id <$> (set_null mid <$> cs)
  = Conversation.session_id <$> cs.
Proof.
  rewrite <- !list_fmap_compose.
  split; apply list_fmap_ext; intros i r _; unfold set_null; simpl;
    by destruct (refers_to mid r).
Qed.

Lemma store_wf_rewritten (s : Store) (f : Conversation.t → Conversation.t) n w :
  store_wf s →
  (∀ r, Conversation.id (f r) = Conversation.id r ∧
        Conversation.session_id (f r) = Conversation.session_id r) →
  ref_integrity (f <$> conversations s) (messages s) →
  store_wf (mkStore (f <$> conversations s) (messages s) (next_conversation_id s)
              (next_message_id s) n (issued s) w).
Proof.
  intros [H1 H2 H3 H4 H5 H6] Hf Hint.
  assert (Conversation.id <$> (f <$> conversations s)
          = Conversation.id <$> conversations s) as Hids.
  { rewrite <- list_fmap_compose. apply list_fmap_ext. intros i r _. apply Hf. }
  assert (Conversation.session_id <$> (f <$> conversations s)
          = Conversation.session_id <$> conversations s) as Hsids.
  { rewrite <- list_fmap_compose. apply list_fmap_ext. intros i r _. apply Hf. }
  split; simpl; try done.
  - by rewrite Hids.
  - intros c Hc. apply list_elem_of_fmap in Hc as (r & -> & Hr).
    rewrite (proj1 (Hf r)). by apply H2.
  - unfold sessions. simpl. by rewrite Hsids.
Qed.

Lemma preserves_Conversation_save c : preserves (Conversation_save c).
Proof.
  intros E s s' r Hwf. unfold Conversation_save, storage. m_unfold. simpl.
  destruct (env_fault E (tick s)); [intros [= <- _]; by apply store_wf_clock|].
  destruct (jsonb_in E (Conversation.lastMessages c)) as [v|];
    [|intros [= <- _]; by apply store_wf_clock].
  assert (∀ (ok : ∀ m, Conversation.messagesId c = Some m →
                       ∃ msg, msg ∈ messages s ∧ Message.id msg = m),
            store_wf (set_tables (write_back (stored_as v c) (env_clock E (tick s))
                                    <$> conversations (set_tick (S (tick s)) s))
                        (messages (set_tick (S (tick s)) s))
                        [UpdateConversation (Conversation.id c)]
                        (set_tick (S (tick s)) s))) as Hdone.
  { intros ok. unfold set_tables. simpl.
    apply (store_wf_rewritten s (write_back (stored_as v c) (env_clock E (tick s))));
      [done| |].
    - intros row. unfold write_back. by destruct (has_id _ row).
    - intros r' m Hr' Hm. apply list_elem_of_fmap in Hr' as (row & -> & Hrow).
      unfold write_back in Hm.
      destruct (has_id _ row); simpl in Hm.
      + by apply ok.
      + by apply (wf_references _ Hwf row). }
  destruct (Conversation.messagesId c) as [m|] eqn:Hm.
  - change (messages (set_tick (S (tick s)) s)) with (messages s).
    destruct (existsb (message_has_id m) (messages s)) eqn:Hx; simpl;
      intros [= <- _]; [|by apply store_wf_clock].
    apply Hdone. intros m' [= <-].
    apply existsb_exists in Hx as (msg & Hin & Hid).
    exists msg. split; [by apply list_elem_of_In|by apply Nat.eqb_eq].
  - simpl. intros [= <- _]. apply Hdone. intros m' H. discriminate H.
Qed.

Lemma preserves_Conversation_delete c : preserves (Conversation_delete c).
Proof.
  intros E s s' r Hwf. unfold Conversation_delete, storage. m_unfold. simpl.
  destruct (env_fault E (tick s)); intros [= <- _]; [by apply store_wf_clock|].
  destruct Hwf as [H1 H2 H3 H4 H5 H6]. unfold set_tables. split; simpl; try done.
  - eapply sublist_NoDup; [exact H1|]. apply fmap_sublist, sublist_filter.
  - intros r' Hr'. apply list_elem_of_filter in Hr' as [_ Hr']. by apply H2.
  - eapply sublist_NoDup; [exact H5|]. apply fmap_sublist, sublist_filter.
  - intros r' m Hr' Hm. apply list_elem_of_filter in Hr' as [_ Hr'].
    by apply (H6 r').
Qed.

Lemma preserves_Message_delete m : preserves (Message_delete m).
Proof.
  intros E s s' r Hwf. unfold Message_delete, storage. m_unfold. simpl.
  destruct (env_fault E (tick s)); intros [= <- _]; [by apply store_wf_clock|].
  pose proof Hwf as [H1 H2 H3 H4 H5 H6]. unfold set_tables. simpl.
  set (mid := Message.id m).
  assert (store_wf (mkStore (set_null mid <$> conversations s) (messages s)
                      (next_conversation_id s) (next_message_id s) (S (tick s))
                      (issued s) (journal s ++ [DeleteMessage mid]))) as Hmid.
  { apply (store_wf_rewritten s (set_null mid)); [done| |].
    - intros row. unfold set_null. by destruct (refers_to mid row).
    - intros r' k Hr' Hk. apply list_elem_of_fmap in Hr' as (row & -> & Hrow).
      unfold set_null in Hk. destruct (refers_to mid row); [discriminate Hk|].
      by apply (H6 row). }
  destruct Hmid as [G1 G2 G3 G4 G5 G6]. split; simpl in *; try done.
  - eapply sublist_NoDup; [exact H3|]. apply fmap_sublist, sublist_filter.
  - intros msg Hmsg. apply list_elem_of_filter in Hmsg as [_ Hmsg]. by apply H4.
  - intros r' k Hr' Hk. apply list_elem_of_fmap in Hr' as (row & -> & Hrow).
    unfold set_null in Hk. destruct (refers_to mid row) eqn:Hrefers;
      [discriminate Hk|].
    destruct (H6 row k Hrow Hk) as (msg & Hmsg & Hid).
    exists msg. split; [|done]. apply list_elem_of_filter. split; [|done].
    unfold message_has_id. rewrite Hid. apply Nat.eqb_neq. intros ->.
    unfold refers_to in Hrefers. rewrite Hk in Hrefers.
    by rewrite Nat.eqb_refl in Hrefers.
Qed.

Ltac preserve :=
  repeat first
    [ apply preserves_ret | apply preserves_throw | apply preserves_storage
    | apply preserves_uuidv4 | apply preserves_axios_post
    | apply preserves_get_store | apply preserves_integer_key
    | apply preserves_preload | apply preserves_ask_env
    | apply preserves_Conversation_create | apply preserves_Message_create
    | apply preserves_Conversation_save | apply preserves_Conversation_delete
    | apply preserves_Message_delete
    | apply preserves_bind; [|intros ?]
    | apply preserves_try_catch; [|intros ?]
    | match goal with
      | |- preserves (match ?x with _ => _ end) => destruct x
      | |- preserves (if ?b then _ else _) => destruct b
      | |- preserves (let '(_, _) := ?x in _) => destruct x
      end ].

Lemma preserves_validate ctx : preserves (request_validate ctx).
Proof. intros E s s' r Hwf H. by rewrite (request_validate_pure _ _ _ _ _ H). Qed.

Lemma preserves_clear_each l : preserves (clear_each l).
Proof. induction l as [|conv rest IH]; simpl; preserve. exact IH. Qed.

Lemma preserves_sendQuestion ctx : preserves (sendQuestion ctx).
Proof.
  unfold sendQuestion, sendQuestion_try, sendQuestion_catch, resolve_conversation,
    record_turn, ask_chatbot, Conversation_findBy_session_id.
  apply preserves_try_catch; [|intros ?; preserve].
  apply preserves_bind; [apply preserves_validate|intros payload].
  preserve.
Qed.

Lemma preserves_getAllConversations ctx : preserves (getAllConversations ctx).
Proof.
  unfold getAllConversations, getAllConversations_try, failure,
    Conversation_paginate.
  preserve.
Qed.

Lemma preserves_getConversationMessages ctx : preserves (getConversationMessages ctx).
Proof.
  unfold getConversationMessages, getConversationMessages_try, failure,
    Conversation_first_with_lastMessage.
  preserve.
Qed.

Lemma preserves_deleteConversation ctx : preserves (deleteConversation ctx).
Proof.
  unfold deleteConversation, deleteConversation_try, failure, Conversation_find.
  preserve.
Qed.

Lemma preserves_deleteMessage ctx : preserves (deleteMessage ctx).
Proof.
  unfold deleteMessage, deleteMessage_try, failure, Message_find,
    Conversation_where_messages_id.
  preserve. apply preserves_clear_each.
Qed.

(** Starting from the empty store, whatever the requests and whatever
    fails, primary keys and session ids stay unique and every last-message
    reference names a stored message. *)
Lemma operations_preserve_store_wf op ctx : preserves (operation op ctx).
Proof.
  destruct op; simpl.
  - apply preserves_sendQuestion.
  - apply preserves_getAllConversations.
  - apply preserves_getConversationMessages.
  - apply preserves_deleteConversation.
  - apply preserves_deleteMessage.
Qed.

Lemma empty_store_wf : store_wf empty_store.
Proof. apply store_wfb_sound. vm_compute. reflexivity. Qed.

(** * Examples on the small deployment *)

(** [demo_store] is what one question leaves of the empty store: the
    chatbot's answer is the text [42], which the database takes for JSON. *)
Example demo_store_reached :
  sendQuestion (ask "six times seven") demo_env empty_store
  = (demo_store, Ok (response.ok (AnswerBody uuid_a (JStr "42")))).
Proof. vm_compute. reflexivity. Qed.

(** An answer that is no JSON text: the conversation and both messages
    are inserted, [save] throws, and the response is 500. *)
Example plain_answer_is_answered_500 :
  sendQuestion (ask "ping") demo_env empty_store
  = (mkStore [blank_conversation 1 uuid_a 1001]
       [Message.mk 1 user (JStr "ping") 1002; Message.mk 2 bot (JStr "pong") 1004]
       2 3 6 [uuid_a] [InsertConversation 1; InsertMessage 1; InsertMessage 2],
     Ok (response.internalServerError
           (FailureBody "An unexpected error occurred." not_json))).
Proof. vm_compute. reflexivity. Qed.

(** A missing question and a malformed session id are refused with 400,
    and nothing is written; so is a session id that is a UUID of another
    version than 4. *)
Example missing_question_refused :
  sendQuestion (mkContext ∅ no_query ∅) demo_env demo_store
  = (demo_store,
     Ok (response.badRequest
           (ErrorsBody [mkFieldError "required" "question"
                          "required validation failed"]))).
Proof. vm_compute. reflexivity. Qed.

Example malformed_session_refused :
  sendQuestion (ask_in "not-a-uuid" "ping") demo_env demo_store
  = (demo_store,
     Ok (response.badRequest
           (ErrorsBody [mkFieldError "uuid" "sessionId" "uuid validation failed"]))).
Proof. vm_compute. reflexivity. Qed.

Example other_version_session_refused :
  sendQuestion (ask_in "a1b2c3d4-e5f6-7890-1234-567890abcdef" "ping")
    demo_env demo_store
  = (demo_store,
     Ok (response.badRequest
           (ErrorsBody [mkFieldError "uuid" "sessionId" "uuid validation failed"]))).
Proof. vm_compute. reflexivity. Qed.

(** A question of blanks only passes the validator: trimmed, it is the
    empty string, which the validator leaves out of what it returns
    without testing [minLength].  A conversation is created, the chatbot
    is asked without a message, and the insert of the user's message
    fails where the column is not nullable. *)
Example blank_question_is_let_through :
  ∃ s',
    sendQuestion (ask "   ") demo_env demo_store
    = (s', Ok (response.internalServerError
                 (FailureBody "An unexpected error occurred."
                    "null value in column message violates not-null constraint"))) ∧
    conversations s' = [demo_conversation; blank_conversation 2 uuid_b 1007] ∧
    messages s' = messages demo_store.
Proof. eexists. split; [vm_compute; reflexivity|]. split; reflexivity. Qed.

(** Unknown ids are answered 404, and so is a negative one; a numeral
    beyond the range of [integer] is answered 500. *)
Example unknown_ids_not_found :
  (deleteConversation (with_id "7") demo_env demo_store).2
  = Ok (response.notFound (MessageBody "Conversation not found.")) ∧
  (deleteMessage (with_id "7") demo_env demo_store).2
  = Ok (response.notFound (MessageBody "Message not found.")) ∧
  (deleteConversation (with_id "-1") demo_env demo_store).2
  = Ok (response.notFound (MessageBody "Conversation not found.")).
Proof. repeat split; vm_compute; reflexivity. Qed.

Example out_of_range_id_is_answered_500 :
  (deleteConversation (with_id "99999999999") demo_env demo_store).2
  = Ok (response.internalServerError
          (FailureBody "Failed to delete conversation."
             "value is out of range for type integer")).
Proof. vm_compute. reflexivity. Qed.

(** [GET /conversation/1] and [GET /conversation/<uuid_a>] on the store
    that holds conversation 1 with session [uuid_a]: the route resolves to
    no method; run under the route's parameters, or with [id] bound, the
    handler answers 500, since the preload of [lastMessage] throws. *)
Example getConversation_on_demo_store :
  dispatch (mkRequest GET ["conversation"; "1"] no_query ∅)
  = MissingMethod "ConversationsController" "getConversationById" ∧
  dispatch (mkRequest GET ["conversation"; uuid_a] no_query ∅)
  = MissingMethod "ConversationsController" "getConversationById" ∧
  (getConversationMessages (mkContext ∅ no_query {[ "id_or_uuid" := "1" ]})
     demo_env demo_store).2
  = Ok (response.internalServerError
          (FailureBody "Failed to retrieve conversation details."
             missing_attribute)) ∧
  (getConversationMessages (with_id "1") demo_env demo_store).2
  = Ok (response.internalServerError
          (FailureBody "Failed to retrieve conversation details."
             missing_attribute)) ∧
  (getConversationMessages (with_id uuid_a) demo_env demo_store).2
  = Ok (response.internalServerError
          (FailureBody "Failed to retrieve conversation details."
             missing_attribute)).
Proof. repeat split; vm_compute; reflexivity. Qed.

(** The listing of the same store. *)
Example getAllConversations_on_demo_store :
  getAllConversations (mkContext ∅ no_query ∅) demo_env demo_store
  = (demo_store,
     Ok (response.internalServerError
           (FailureBody "Failed to retrieve conversations." missing_attribute))).
Proof. vm_compute. reflexivity. Qed.

(** Page 999 of size 10 over three conversations. *)
Example listing_past_the_last_page :
  getAllConversations (mkContext ∅ (mkQuery None (Some 999) (Some 10)) ∅)
    demo_env three_store
  = (three_store,
     Ok (response.internalServerError
           (FailureBody "Failed to retrieve conversations." missing_attribute))).
Proof. vm_compute. reflexivity. Qed.




(** A question without a session id opens a conversation under the UUID
    drawn for it and stores two messages. *)
Lemma sendQuestion_new_session_rows_witness :
  ∃ s' c userMessage botMessage now,
    conversations (sendQuestion (ask "ping") demo_env empty_store).1
    = [saved_row demo_env c botMessage now] ∧
    s' = (sendQuestion (ask "ping") demo_env empty_store).1 ∧
    Conversation.session_id c = uuid_a ∧
    messages s' = [userMessage; botMessage] ∧
    issued s' = [uuid_a].
Proof.
  destruct (sendQuestion_new_session_rows demo_env empty_store (ask "ping")
              (mkPayload "ping" None))
    as (s' & c & userMessage & botMessage & now & Hrun & Hiss & Hsid & _ & Hcs
        & Hms & _).
  - intros t. reflexivity.
  - apply store_wfb_sound. vm_compute. reflexivity.
  - vm_compute. reflexivity.
  - reflexivity.
  - apply not_elem_of_nil.
  - exists s', c, userMessage, botMessage, now. rewrite Hrun. auto.
Defined.

(** Deleting the bot's reply clears the conversation that pointed at it. *)
Lemma deleteMessage_clears_references_first_witness :
  ∃ s',
    deleteMessage (with_id "2") demo_env demo_store
    = (s', Ok (mkResponse 204 NoBody)) ∧
    Forall2 (cleared_if_referring 2) [demo_conversation] (conversations s') ∧
    journal s' = journal demo_store ++ [UpdateConversation 1; DeleteMessage 2] ∧
    ref_integrity (conversations s') (messages s').
Proof.
  destruct (deleteMessage_clears_references_first demo_env demo_store
              (with_id "2") "2" demo_reply)
    as (s' & before & after & Hrun & _ & _ & Hrel & Hjournal & Hint).
  - intros t. reflexivity.
  - apply store_wfb_sound. vm_compute. reflexivity.
  - vm_compute. reflexivity.
  - reflexivity.
  - apply list_elem_of_further, list_elem_of_here.
  - exists s'. auto.
Defined.

(** Deleting the conversation leaves both messages. *)
Lemma deleteConversation_removes_only_that_row_witness :
  ∃ s',
    deleteConversation (with_id "1") demo_env demo_store
    = (s', Ok (mkResponse 204 NoBody)) ∧
    messages s' = [demo_question; demo_reply].
Proof.
  destruct (deleteConversation_removes_only_that_row demo_env demo_store
              (with_id "1") "1" demo_conversation)
    as (s' & before & after & Hrun & _ & _ & Hms & _).
  - intros t. reflexivity.
  - apply store_wfb_sound. vm_compute. reflexivity.
  - vm_compute. reflexivity.
  - reflexivity.
  - apply list_elem_of_here.
  - exists s'. auto.
Defined.

(** With the database unreachable, the driver's message reaches the
    client. *)
Lemma internal_failure_reports_error_message_witness :
  ∃ s',
    sendQuestion (ask "hello") failing_env demo_store
    = (s', Ok (mkResponse 500 (FailureBody "An unexpected error occurred." db_down))).
Proof.
  exists (sendQuestion_try (ask "hello") failing_env demo_store).1.
  apply (internal_failure_reports_error_message OpSendQuestion).
  vm_compute. reflexivity.
Defined.

(** C4 as stated fails on the same request: the body is not a generic
    message only, it carries the storage error's message. *)
Lemma internal_failure_discloses_detail :
  let run := sendQuestion (ask "hello") failing_env demo_store in
  sendQuestion_try (ask "hello") failing_env demo_store
  = (run.1, Throw (Error db_down)) ∧
  run.2 = Ok (mkResponse 500 (FailureBody "An unexpected error occurred." db_down)) ∧
  ¬ ∃ generic, run.2 = Ok (mkResponse 500 (MessageBody generic)).
Proof.
  split; [vm_compute; reflexivity|]. split; [vm_compute; reflexivity|].
  intros [generic H]. vm_compute in H. discriminate H.
Qed.

(** * Further properties of the controller *)

(** ** Every handler answers *)

Lemma answers_ret {A} (P : A → Prop) a : P a → answers P (mret a).
Proof. intros H E s s' b [= _ <-]. done. Qed.

Lemma answers_throw {A} (P : A → Prop) e : answers P (throw e).
Proof. intros E s s' b H. discriminate H. Qed.

Lemma answers_bind {A B} (P : B → Prop) (m : M A) (k : A → M B) :
  (∀ a, answers P (k a)) → answers P (m ≫= k).
Proof.
  intros Hk E s s' b. m_unfold.
  destruct (m E s) as [s1 [a|e]]; [apply Hk|discriminate].
Qed.

Ltac answer :=
  repeat first
    [ apply answers_throw
    | apply answers_bind; intros ?
    | match goal with
      | |- answers _ (match ?x with _ => _ end) => destruct x
      | |- answers _ (let '(_, _) := ?x in _) => destruct x
      end
    | apply answers_ret ].

Lemma try_catch_answers {A} (P : A → Prop) (m : M A) (h : JsError → M A) E s :
  answers P m →
  (∀ e s1, ∃ a, h e E s1 = (s1, Ok a) ∧ P a) →
  ∃ s' a, try_catch m h E s = (s', Ok a) ∧ P a.
Proof.
  intros Hm Hh. unfold try_catch.
  destruct (m E s) as [s1 [a|e]] eqn:Hrun.
  - exists s1, a. split; [done|]. by eapply Hm.
  - destruct (Hh e s1) as (a & Hrun' & Ha). by exists s1, a.
Qed.

Lemma failure_answers generic e E s1 (codes : list nat) :
  500 ∈ codes →
  ∃ a, failure generic e E s1 = (s1, Ok a) ∧ status a ∈ codes.
Proof. intros H. eexists. split; [reflexivity|done]. Qed.

(** X1.  No handler lets an exception escape, whatever the request, the
    store and the environment: each answers with a response, and its
    status is one of the codes its [@swagger] block documents
    ([sendQuestion]: 200, 400, 500; the listing: 200, 500; the lookup: 200,
    404, 500; the two deletions: 204, 404, 500). *)
Theorem operations_always_answer op ctx E s :
  ∃ s' resp, operation op ctx E s = (s', Ok resp) ∧ status resp ∈ statuses op.
Proof.
  destruct op; simpl.
  - apply try_catch_answers.
    + unfold sendQuestion_try, record_turn. answer; simpl; set_solver.
    + intros [errors|msg] s1; eexists; (split; [reflexivity|]); simpl; set_solver.
  - apply try_catch_answers.
    + unfold getAllConversations_try. answer; simpl; set_solver.
    + intros e s1. apply failure_answers. set_solver.
  - apply try_catch_answers.
    + unfold getConversationMessages_try. answer; simpl; set_solver.
    + intros e s1. apply failure_answers. set_solver.
  - apply try_catch_answers.
    + unfold deleteConversation_try. answer; simpl; set_solver.
    + intros e s1. apply failure_answers. set_solver.
  - apply try_catch_answers.
    + unfold deleteMessage_try. answer; simpl; set_solver.
    + intros e s1. apply failure_answers. set_solver.
Qed.

Lemma answers_bind_with {A B} (Q : A → Prop) (P : B → Prop) (m : M A) (k : A → M B) :
  answers Q m → (∀ a, Q a → answers P (k a)) → answers P (m ≫= k).
Proof.
  intros Hm Hk E s s' b. m_unfold.
  destruct (m E s) as [s1 [a|e]] eqn:Hrun; [|discriminate].
  apply Hk. by eapply Hm.
Qed.

Lemma resolve_conversation_finds payload :
  answers (λ found, is_Some found.1) (resolve_conversation payload).
Proof. unfold resolve_conversation. answer; by eexists. Qed.

(** X2.  The guard of lines 87-89 is dead code: whatever the request, the
    store and the environment, [sendQuestion] never answers
    ["Failed to create or find conversation."], because each branch of
    the session resolution either throws or yields a conversation. *)
Theorem sendQuestion_guard_is_dead ctx E s :
  (sendQuestion ctx E s).2
  ≠ Ok (response.internalServerError
          (MessageBody "Failed to create or find conversation.")).
Proof.
  assert (answers (λ resp, Ok resp
                     ≠ Ok (response.internalServerError
                             (MessageBody "Failed to create or find conversation.")))
            (sendQuestion_try ctx)) as Hguard.
  { unfold sendQuestion_try.
    apply answers_bind; intros payload.
    eapply answers_bind_with; [apply resolve_conversation_finds|].
    intros [[c|] sid] [c' Hc]; [|discriminate Hc].
    unfold record_turn. answer. discriminate. }
  unfold sendQuestion, try_catch.
  destruct (sendQuestion_try ctx E s) as [s1 [resp|e]] eqn:Hrun; simpl.
  - by eapply Hguard.
  - destruct e; discriminate.
Qed.

(** ** What the validator refuses *)



(** ** What each handler leaves alone, whatever fails *)

Lemma follows_ret {A} (R : Store → Store → Prop) `{!Reflexive R} (a : A) :
  follows R (mret a).
Proof. intros E s s' r [= <- _]. reflexivity. Qed.

Lemma follows_throw {A} (R : Store → Store → Prop) `{!Reflexive R} e :
  follows R (@throw A e).
Proof. intros E s s' r [= <- _]. reflexivity. Qed.

Lemma follows_bind {A B} (R : Store → Store → Prop) `{!Transitive R}
    (m : M A) (k : A → M B) :
  follows R m → (∀ a, follows R (k a)) → follows R (m ≫= k).
Proof.
  intros Hm Hk E s s' r. m_unfold.
  destruct (m E s) as [s1 [a|e]] eqn:Hrun.
  - intros Hk'. etrans; [by eapply Hm|by eapply Hk].
  - intros [= <- _]. by eapply Hm.
Qed.

Lemma follows_try_catch {A} (R : Store → Store → Prop) `{!Transitive R}
    (m : M A) (h : JsError → M A) :
  follows R m → (∀ e, follows R (h e)) → follows R (try_catch m h).
Proof.
  intros Hm Hh E s s' r. unfold try_catch.
  destruct (m E s) as [s1 [a|e]] eqn:Hrun.
  - intros [= <- _]. by eapply Hm.
  - intros Hh'. etrans; [by eapply Hm|by eapply Hh].
Qed.

#[local] Instance same_tables_refl : Reflexive same_tables.
Proof. intros s. by repeat split. Qed.

#[local] Instance same_tables_trans : Transitive same_tables.
Proof.
  intros s1 s2 s3 (A1 & A2 & A3 & A4 & A5 & A6) (B1 & B2 & B3 & B4 & B5 & B6).
  repeat split; congruence.
Qed.

#[local] Instance keeps_rows_refl : Reflexive keeps_rows.
Proof. intros s. by repeat split. Qed.

#[local] Instance keeps_rows_trans : Transitive keeps_rows.
Proof.
  intros s1 s2 s3 (A1 & A2 & A3 & A4 & A5 & A6) (B1 & B2 & B3 & B4 & B5 & B6).
  repeat split; try (by etrans); lia.
Qed.

#[local] Instance adds_no_row_refl : Reflexive adds_no_row.
Proof. intros s. by repeat split. Qed.

#[local] Instance adds_no_row_trans : Transitive adds_no_row.
Proof.
  intros s1 s2 s3 (A1 & A2 & A3 & A4 & A5) (B1 & B2 & B3 & B4 & B5).
  repeat split; try (by etrans); congruence.
Qed.

Lemma reads_nothing_storage : follows same_tables storage.
Proof. run_call; by repeat split. Qed.

Lemma reads_nothing_preload : follows same_tables preload_lastMessage.
Proof. run_call; by repeat split. Qed.

Lemma reads_nothing_first matching :
  follows same_tables matching →
  follows same_tables (Conversation_first_with_lastMessage matching).
Proof.
  intros Hm. unfold Conversation_first_with_lastMessage.
  apply follows_bind; [apply _|apply reads_nothing_preload|intros _].
  apply follows_bind; [apply _|apply reads_nothing_storage|intros _].
  apply follows_bind; [apply _|exact Hm|intros f].
  intros E s s' r [= <- _]. reflexivity.
Qed.

Lemma reads_nothing_integer_key key : follows same_tables (integer_key key).
Proof. run_call; by repeat split. Qed.

Lemma reads_nothing_paginate matching page limit :
  follows same_tables (Conversation_paginate matching page limit).
Proof. run_call; by repeat split. Qed.

(** X5.  The two read operations write nothing, whatever fails: after
    the listing and after the lookup, both tables, both id sequences, the
    log of issued UUIDs and the journal of writes are what they were. *)
Theorem read_operations_write_nothing ctx E s :
  same_tables s (getAllConversations ctx E s).1 ∧
  same_tables s (getConversationMessages ctx E s).1.
Proof.
  split.
  - destruct (getAllConversations ctx E s) as [s' r] eqn:Hrun. simpl.
    revert Hrun. apply follows_try_catch; [apply _| |].
    + unfold getAllConversations_try.
      apply follows_bind; [apply _|apply reads_nothing_paginate|].
      intros [meta data]. apply follows_ret, _.
    + intros e. apply follows_ret, _.
  - destruct (getConversationMessages ctx E s) as [s' r] eqn:Hrun. simpl.
    revert Hrun. apply follows_try_catch; [apply _| |].
    + unfold getConversationMessages_try.
      apply follows_bind; [apply _| |].
      * destruct (isUUID _); apply reads_nothing_first.
        -- apply follows_ret, _.
        -- apply follows_bind; [apply _|apply reads_nothing_integer_key|].
           intros i. apply follows_ret, _.
      * intros [c|]; apply follows_ret, _.
    + intros e. apply follows_ret, _.
Qed.

Ltac rows_kept :=
  repeat split; simpl;
  rewrite ?fmap_app, ?(proj1 (write_back_keeps_keys _ _ _)),
    ?(proj2 (write_back_keeps_keys _ _ _));
  try (by apply prefix_app_r); try done; try lia.

Lemma keeps_rows_storage : follows keeps_rows storage.
Proof. run_call; rows_kept. Qed.

Lemma keeps_rows_uuidv4 : follows keeps_rows uuidv4.
Proof. run_call; rows_kept. Qed.

Lemma keeps_rows_axios_post url sid q : follows keeps_rows (axios_post url sid q).
Proof. run_call; rows_kept. Qed.

Lemma keeps_rows_findBy sid : follows keeps_rows (Conversation_findBy_session_id sid).
Proof. run_call; rows_kept. Qed.

Lemma keeps_rows_create sid : follows keeps_rows (Conversation_create sid).
Proof. run_call; rows_kept. Qed.

Lemma keeps_rows_Message_create sender text :
  follows keeps_rows (Message_create sender text).
Proof. run_call; rows_kept. Qed.

Lemma keeps_rows_save c : follows keeps_rows (Conversation_save c).
Proof. run_call; unfold set_tables; rows_kept. Qed.

Ltac keep_rows :=
  repeat first
    [ apply follows_ret; apply _ | apply follows_throw; apply _
    | apply keeps_rows_storage | apply keeps_rows_uuidv4
    | apply keeps_rows_axios_post | apply keeps_rows_findBy
    | apply keeps_rows_create | apply keeps_rows_Message_create
    | apply keeps_rows_save
    | apply follows_bind; [apply _| |intros ?]
    | apply follows_try_catch; [apply _| |intros ?]
    | match goal with
      | |- follows _ (match ?x with _ => _ end) => destruct x
      | |- follows _ (let '(_, _) := ?x in _) => destruct x
      end ].

(** X6.  [sendQuestion] never removes, moves or renumbers a row,
    whatever fails on the way: the messages stored before are still there
    unchanged, every conversation keeps its place, primary id and session
    id, neither id sequence goes back and the journal only grows. *)
Theorem sendQuestion_keeps_rows ctx E s :
  keeps_rows s (sendQuestion ctx E s).1.
Proof.
  destruct (sendQuestion ctx E s) as [s' r] eqn:Hrun. simpl. revert Hrun.
  generalize r. generalize s'. generalize s. generalize E.
  change (follows keeps_rows (sendQuestion ctx)).
  unfold sendQuestion, sendQuestion_try, sendQuestion_catch,
    resolve_conversation, record_turn, ask_chatbot.
  apply follows_try_catch; [apply _| |intros ?; keep_rows].
  apply follows_bind; [apply _| |intros payload; keep_rows].
  intros E' s1 s2 r' H. rewrite (request_validate_pure _ _ _ _ _ H). reflexivity.
Qed.

Ltac no_row_added :=
  unfold set_tables; repeat split; simpl;
  rewrite ?(proj1 (write_back_keeps_keys _ _ _)),
    ?(proj1 (set_null_keeps_keys _ _));
  try apply fmap_sublist; try apply sublist_filter; try done.

Lemma adds_no_row_Conversation_find key : follows adds_no_row (Conversation_find key).
Proof. run_call; no_row_added. Qed.

Lemma adds_no_row_Message_find key : follows adds_no_row (Message_find key).
Proof. run_call; no_row_added. Qed.

Lemma adds_no_row_where mid : follows adds_no_row (Conversation_where_messages_id mid).
Proof. run_call; no_row_added. Qed.

Lemma adds_no_row_save c : follows adds_no_row (Conversation_save c).
Proof. run_call; no_row_added. Qed.

Lemma adds_no_row_Conversation_delete c : follows adds_no_row (Conversation_delete c).
Proof. run_call; no_row_added. Qed.

Lemma adds_no_row_Message_delete m : follows adds_no_row (Message_delete m).
Proof. run_call; no_row_added. Qed.

Ltac add_no_row :=
  repeat first
    [ apply follows_ret; apply _ | apply follows_throw; apply _
    | apply adds_no_row_Conversation_find | apply adds_no_row_Message_find
    | apply adds_no_row_where | apply adds_no_row_save
    | apply adds_no_row_Conversation_delete | apply adds_no_row_Message_delete
    | apply follows_bind; [apply _| |intros ?]
    | apply follows_try_catch; [apply _| |intros ?]
    | match goal with
      | |- follows _ (match ?x with _ => _ end) => destruct x
      end ].

Lemma adds_no_row_clear_each l : follows adds_no_row (clear_each l).
Proof. induction l as [|conv rest IH]; simpl; add_no_row. exact IH. Qed.

(** X7.  The two deletions never add anything, whatever fails: the
    messages and the conversation ids left are among those stored before,
    in their order, no id is handed out and no UUID is drawn. *)
Theorem deletions_add_no_row ctx E s :
  adds_no_row s (deleteConversation ctx E s).1 ∧
  adds_no_row s (deleteMessage ctx E s).1.
Proof.
  split.
  - destruct (deleteConversation ctx E s) as [s' r] eqn:Hrun. simpl. revert Hrun.
    generalize r. generalize s'. generalize s. generalize E.
    change (follows adds_no_row (deleteConversation ctx)).
    unfold deleteConversation, deleteConversation_try, failure. add_no_row.
  - destruct (deleteMessage ctx E s) as [s' r] eqn:Hrun. simpl. revert Hrun.
    generalize r. generalize s'. generalize s. generalize E.
    change (follows adds_no_row (deleteMessage ctx)).
    unfold deleteMessage, deleteMessage_try, failure. add_no_row.
    apply adds_no_row_clear_each.
Qed.

(** ** Invariants of every store the routes can reach *)

Lemma find_route_elem rs req r ps :
  find_route rs req = Some (r, ps) → r ∈ rs.
Proof.
  induction rs as [|r' rs IH]; simpl; [done|].
  destruct (verb_eqb (route_verb r') (req_verb req)).
  - destruct (match_pattern _ _).
    + intros [= <- _]. left.
    + intros H. right. auto.
  - intros H. right. auto.
Qed.

(** What a request can run: the root closure, or one of the four wired
    methods; the lookup method is run by no route. *)
Lemma dispatch_handled req run :
  dispatch req = Handled run →
  ∃ ctx,
    run = mret (response.ok (JsonBody (JObj [("hello", JStr "world")]))) ∨
    ∃ op, op ≠ OpGetConversationMessages ∧ run = operation op ctx.
Proof.
  unfold dispatch. intros Hd.
  destruct (find_route routes req) as [[r ps]|] eqn:Hf; [|discriminate].
  apply find_route_elem in Hf. unfold routes in Hf.
  exists (mkContext (req_body req) (req_qs req) ps).
  repeat (apply elem_of_cons in Hf as [->|Hf]); simpl in Hd;
    try (by apply elem_of_nil in Hf); try discriminate Hd;
    injection Hd as <-.
  - by left.
  - right. by exists OpSendQuestion.
  - right. by exists OpGetAllConversations.
  - right. by exists OpDeleteConversation.
  - right. by exists OpDeleteMessage.
Qed.

Lemma serve_invariant (I : Store → Prop) E s req :
  (∀ op ctx E s, I s → I (operation op ctx E s).1) →
  I s → I (serve E s req).
Proof.
  intros Hop Hs. unfold serve.
  destruct (dispatch req) as [| |run] eqn:Hd; try done.
  destruct (dispatch_handled _ _ Hd) as (ctx & [->|(op & _ & ->)]); [done|].
  by apply Hop.
Qed.

Lemma serve_all_invariant (I : Store → Prop) E reqs s :
  (∀ op ctx E s, I s → I (operation op ctx E s).1) →
  I s → I (serve_all E reqs s).
Proof.
  intros Hop. unfold serve_all. revert s.
  induction reqs as [|req reqs IH]; simpl; [done|].
  intros s Hs. apply IH. by apply serve_invariant.
Qed.

(** X8.  In every store the service can reach from the empty one, by any
    sequence of requests through the routes and whatever fails on the way
    (storage, the chatbot, validation): primary keys are unique and below
    their sequences, session ids are unique, and every last-message
    reference names a stored message. *)
Theorem reachable_stores_are_well_formed E reqs :
  store_wf (serve_all E reqs empty_store).
Proof.
  apply serve_all_invariant.
  - intros op ctx E' s Hs.
    destruct (operation op ctx E' s) as [s' r] eqn:Hrun.
    by apply (operations_preserve_store_wf op ctx E' s s' r).
  - apply store_wfb_sound. vm_compute. reflexivity.
Qed.

(** ** A failure half-way: what was written stays written *)

(** X13.  [sendQuestion] is not atomic.  A valid question without a
    session id, for which storage works until the user's message is stored
    and fails when the bot's answer is to be stored: the response is 500
    with the failure's own text and carries no session id, yet the
    conversation opened for the question and the user's message stay
    stored, the conversation with no last message; no other row
    changes. *)
Theorem sendQuestion_failure_keeps_earlier_writes E s ctx payload detail :
  validate ctx E s = (s, Ok payload) →
  sessionId payload = None →
  env_uuid E (tick s) ∉ sessions s →
  env_fault E (1 + tick s) = None →
  env_fault E (2 + tick s) = None →
  env_fault E (4 + tick s) = Some detail →
  ∃ s',
    sendQuestion ctx E s
    = (s', Ok (mkResponse 500
                 (FailureBody "An unexpected error occurred." detail))) ∧
    conversations s'
    = conversations s
      ++ [blank_conversation (next_conversation_id s) (env_uuid E (tick s))
            (env_clock E (1 + tick s))] ∧
    messages s'
    = messages s
      ++ [Message.mk (next_message_id s) user (JStr (question payload))
            (env_clock E (2 + tick s))] ∧
    journal s'
    = journal s ++ [InsertConversation (next_conversation_id s);
                    InsertMessage (next_message_id s)].
Proof.
  intros Hv Hsid Hfresh H1 H2 H4.
  destruct (validate_ok _ _ _ _ _ Hv) as (Hr & Hq & _ & Hp).
  destruct s as [cs ms nc nm t iss jn]. simpl in *.
  unfold sendQuestion, sendQuestion_try, try_catch.
  erewrite bind_ok; [|exact Hr]. cbn [v_question v_sessionId].
  unfold resolve_conversation. rewrite Hsid. simpl provided. cbv iota.
  erewrite bind_ok.
  2:{ erewrite bind_ok; [|apply uuidv4_run].
      erewrite bind_ok; [done|].
      apply Conversation_create_at; [done|apply env_uuid_canonical|].
      by apply existsb_session_is. }
  cbv beta iota. unfold record_turn. simpl js_optional.
  erewrite bind_ok.
  2:{ apply Message_create_at; [done|]. simpl.
      by destruct (String.eqb_spec (question payload) ""). }
  erewrite bind_ok; [|apply ask_chatbot_run].
  erewrite bind_throw; [|by apply Message_create_fault].
  simpl. eexists. split; [reflexivity|]. simpl.
  split; [done|]. split; [done|]. by rewrite <- app_assoc.
Qed.

(** The first question asked of the empty store, storage failing at the
    fifth step: a conversation and the question are left behind. *)
Lemma sendQuestion_failure_keeps_earlier_writes_witness :
  ∃ s',
    sendQuestion (ask "ping") (flaky_env 4) empty_store
    = (s', Ok (mkResponse 500
                 (FailureBody "An unexpected error occurred." db_down))) ∧
    conversations s' = [blank_conversation 1 uuid_a 1001] ∧
    messages s' = [Message.mk 1 user (JStr "ping") 1002].
Proof.
  destruct (sendQuestion_failure_keeps_earlier_writes (flaky_env 4) empty_store
              (ask "ping") (mkPayload "ping" None) db_down)
    as (s' & Hrun & Hc & Hm & _);
    try reflexivity.
  - apply not_elem_of_nil.
  - exists s'. split; [exact Hrun|]. split; [exact Hc|exact Hm].
Defined.

Lemma Conversation_save_cleared_at E s conv :
  env_fault E (tick s) = None →
  Conversation_save
    (Conversation.mk (Conversation.id conv) (Conversation.session_id conv)
       None JNull (Conversation.createdAt conv) (Conversation.updatedAt conv)) E s
  = (mkStore
       (fmap (write_back
               (Conversation.mk (Conversation.id conv) (Conversation.session_id conv)
                  None JNull (Conversation.createdAt conv)
                  (Conversation.updatedAt conv))
               (env_clock E (tick s))) (conversations s))
       (messages s) (next_conversation_id s) (next_message_id s) (S (tick s))
       (issued s) (journal s ++ [UpdateConversation (Conversation.id conv)]),
     Ok tt).
Proof.
  intros HE. by rewrite (Conversation_save_stored E s _ JNull).
Qed.

(** The loop, when storage works for as many steps as it has rows to
    save. *)
Lemma clear_each_run_at E l :
  ∀ s, (∀ t, (tick s ≤ t < List.length l + tick s)%nat → env_fault E t = None) →
  ∃ cs',
    clear_each l E s
    = (mkStore cs' (messages s) (next_conversation_id s) (next_message_id s)
         (List.length l + tick s) (issued s)
         (journal s ++ (UpdateConversation ∘ Conversation.id <$> l)),
       Ok tt) ∧
    Forall2 (cleared_among (Conversation.id <$> l)) (conversations s) cs'.
Proof.
  induction l as [|conv rest IH]; intros s HE.
  - exists (conversations s). split.
    + destruct s. simpl. by rewrite app_nil_r.
    + apply Forall2_refl_on. intros r. unfold cleared_among.
      case_bool_decide as Hin; [by apply elem_of_nil in Hin|done].
  - simpl clear_each.
    erewrite bind_ok.
    2:{ apply Conversation_save_cleared_at, HE. simpl. lia. }
    cbv beta. edestruct IH as (cs' & Hrun & Hrel).
    2:{ rewrite Hrun. simpl.
        exists cs'. split.
        + rewrite <- app_assoc. simpl. by rewrite Nat.add_succ_r.
        + simpl in Hrel. rewrite Forall2_fmap_l in Hrel.
          eapply Forall2_impl; [exact Hrel|]. intros r r'. apply cleared_among_step. }
    simpl. intros t Ht. apply HE. simpl. lia.
Qed.

(** X14.  [deleteMessage] is not atomic either.  When storage works for
    the lookup, the query and every save of the loop, and fails at the
    deletion itself, the response is 500 with the failure's own text and
    the message is still stored, but every conversation that referred to
    it has already lost its reference and its cached text: the message
    can no longer be reached through a conversation. *)
Theorem deleteMessage_failure_keeps_cleared_references E s ctx k message detail :
  store_wf s →
  params ctx !! "id" = Some k →
  parse_nat k = Some (Message.id message) →
  message ∈ messages s →
  let referring :=
    filter (λ c, refers_to (Message.id message) c = true) (conversations s) in
  (∀ t, (tick s ≤ t < 2 + List.length referring + tick s)%nat →
        env_fault E t = None) →
  env_fault E (2 + List.length referring + tick s) = Some detail →
  ∃ s',
    deleteMessage ctx E s
    = (s', Ok (mkResponse 500 (FailureBody "Failed to delete message." detail))) ∧
    messages s' = messages s ∧
    Forall2 (cleared_if_referring (Message.id message))
      (conversations s) (conversations s') ∧
    journal s'
    = journal s ++ (UpdateConversation ∘ Conversation.id <$> referring).
Proof.
  intros Hwf Hk Hparse Hin referring HE Hfault.
  pose proof (wf_message_ids _ Hwf) as Hnd.
  pose proof (wf_conversation_ids _ Hwf) as Hndc.
  destruct s as [cs ms nc nm t iss jn]. simpl in *.
  unfold deleteMessage, deleteMessage_try, try_catch. rewrite Hk.
  erewrite bind_ok.
  2:{ unfold Message_find.
      erewrite bind_ok; [|apply storage_ok_at, HE; simpl; lia].
      erewrite bind_ok; [|by apply integer_key_run]. m_unfold. simpl.
      rewrite find_message_has_key. unfold message_has_id.
      rewrite (find_key Message.id _ message Hnd Hin). reflexivity. }
  cbv beta iota.
  set (mid := Message.id message) in *.
  erewrite bind_ok.
  2:{ unfold Conversation_where_messages_id.
      erewrite bind_ok; [|apply storage_ok_at, HE; simpl; lia].
      m_unfold. reflexivity. }
  simpl conversations. fold referring.
  destruct (clear_each_run_at E referring (mkStore cs ms nc nm (S (S t)) iss jn))
    as (cs' & Hloop & Hrel).
  { simpl. intros t' Ht'. apply HE. lia. }
  simpl in Hloop, Hrel.
  erewrite bind_ok; [|exact Hloop].
  unfold Message_delete.
  erewrite bind_throw.
  2:{ erewrite bind_throw; [reflexivity|]. apply storage_fault. simpl.
      rewrite <- Hfault. f_equal. lia. }
  unfold failure. m_unfold. unfold set_tick. simpl.
  eexists. split; [reflexivity|]. simpl.
  split; [done|]. split; [|done].
  eapply Forall2_impl_elem; [exact Hrel|].
  intros r r' Hr (H1 & H2 & H3 & H4). do 3 (split; [done|]).
  pose proof (referring_ids mid _ r Hndc Hr) as Hiff. fold referring in Hiff.
  case_bool_decide as Hd.
  - by rewrite (proj1 Hiff Hd).
  - destruct (refers_to mid r); [|done]. exfalso. by apply Hd, Hiff.
Qed.

(** Deleting the bot's answer from [demo_store], the deletion itself
    failing: the answer is still stored. *)
Lemma deleteMessage_failure_keeps_cleared_references_witness :
  ∃ s',
    deleteMessage (with_id "2") (flaky_env 9) demo_store
    = (s', Ok (mkResponse 500 (FailureBody "Failed to delete message." db_down))) ∧
    messages s' = [demo_question; demo_reply].
Proof.
  destruct (deleteMessage_failure_keeps_cleared_references (flaky_env 9)
              demo_store (with_id "2") "2" demo_reply db_down)
    as (s' & Hrun & Hm & _).
  - apply store_wfb_sound. vm_compute. reflexivity.
  - reflexivity.
  - reflexivity.
  - right. left.
  - intros t Ht. simpl in *. destruct (Nat.eqb_spec t 9); [lia|done].
  - reflexivity.
  - exists s'. split; [exact Hrun|exact Hm].
Defined.

(** ** Stored messages are never edited *)

#[local] Instance edits_no_message_refl : Reflexive edits_no_message.
Proof.
  intros s. repeat split; auto. intros c' Hc'. left. by exists c'.
Qed.

#[local] Instance edits_no_message_trans : Transitive edits_no_message.
Proof.
  intros s1 s2 s3 (A1 & A2 & A3 & A4) (B1 & B2 & B3 & B4).
  repeat split; try lia.
  - intros m Hm. destruct (B3 m Hm) as [H|H]; [|right; lia].
    destruct (A3 m H); auto.
  - intros c3 Hc3. destruct (B4 c3 Hc3) as [(c2 & Hc2 & E1 & E2 & E3)|H];
      [|right; lia].
    destruct (A4 c2 Hc2) as [(c1 & Hc1 & F1 & F2 & F3)|H].
    + left. exists c1. split; [done|]. repeat split; congruence.
    + right. rewrite <- E1. lia.
Qed.

Lemma write_back_same_conversation p now r : same_conversation r (write_back p now r).
Proof. unfold write_back. by destruct (has_id _ r). Qed.

Lemma set_null_same_conversation mid r : same_conversation r (set_null mid r).
Proof. unfold set_null. by destruct (refers_to mid r). Qed.

Ltac old_message Hm :=
  first
    [ left; exact Hm
    | left; apply list_elem_of_filter in Hm as [_ Hm]; exact Hm
    | apply elem_of_app in Hm as [Hm|Hm];
      [left; exact Hm
      |right; apply list_elem_of_singleton in Hm; subst; simpl; lia] ].

Ltac old_conversation Hc :=
  first
    [ left; eexists; split; [exact Hc|by repeat split]
    | apply list_elem_of_fmap in Hc as (? & -> & Hc);
      left; eexists; split;
      [exact Hc
      |first [apply write_back_same_conversation|apply set_null_same_conversation]]
    | apply list_elem_of_filter in Hc as [_ Hc];
      left; eexists; split; [exact Hc|by repeat split]
    | apply elem_of_app in Hc as [Hc|Hc];
      [left; eexists; split; [exact Hc|by repeat split]
      |right; apply list_elem_of_singleton in Hc; subst; simpl; lia] ].

Ltac no_edit :=
  unfold set_tables; split; [simpl; lia|]; split; [simpl; lia|]; split; simpl;
  [ let Hm := fresh "Hm" in intros ? Hm; old_message Hm
  | let Hc := fresh "Hc" in intros ? Hc; old_conversation Hc ].

Lemma no_edit_storage : follows edits_no_message storage.
Proof. run_call; no_edit. Qed.

Lemma no_edit_uuidv4 : follows edits_no_message uuidv4.
Proof. run_call; no_edit. Qed.

Lemma no_edit_axios_post url sid q : follows edits_no_message (axios_post url sid q).
Proof. run_call; no_edit. Qed.

Lemma no_edit_findBy sid :
  follows edits_no_message (Conversation_findBy_session_id sid).
Proof. run_call; no_edit. Qed.

Lemma no_edit_create sid : follows edits_no_message (Conversation_create sid).
Proof. run_call; no_edit. Qed.

Lemma no_edit_Message_create sender text :
  follows edits_no_message (Message_create sender text).
Proof. run_call; no_edit. Qed.

Lemma no_edit_save c : follows edits_no_message (Conversation_save c).
Proof. run_call; no_edit. Qed.

Lemma no_edit_Conversation_find key :
  follows edits_no_message (Conversation_find key).
Proof. run_call; no_edit. Qed.

Lemma no_edit_Message_find key : follows edits_no_message (Message_find key).
Proof. run_call; no_edit. Qed.

Lemma no_edit_where mid :
  follows edits_no_message (Conversation_where_messages_id mid).
Proof. run_call; no_edit. Qed.

Lemma no_edit_Conversation_delete c :
  follows edits_no_message (Conversation_delete c).
Proof. run_call; no_edit. Qed.

Lemma no_edit_Message_delete m : follows edits_no_message (Message_delete m).
Proof. run_call; no_edit. Qed.

Lemma no_edit_integer_key key : follows edits_no_message (integer_key key).
Proof. run_call; no_edit. Qed.

Lemma no_edit_paginate matching page limit :
  follows edits_no_message (Conversation_paginate matching page limit).
Proof. run_call; no_edit. Qed.

Lemma no_edit_get_store : follows edits_no_message get_store.
Proof. intros E s s' r [= <- _]. reflexivity. Qed.

Lemma no_edit_validate ctx : follows edits_no_message (request_validate ctx).
Proof.
  intros E s s' r H. rewrite (request_validate_pure _ _ _ _ _ H). reflexivity.
Qed.

Lemma no_edit_preload : follows edits_no_message preload_lastMessage.
Proof. run_call; no_edit. Qed.

Ltac edit_nothing :=
  repeat first
    [ apply follows_ret; apply _ | apply follows_throw; apply _
    | apply no_edit_storage | apply no_edit_uuidv4 | apply no_edit_axios_post
    | apply no_edit_findBy | apply no_edit_create | apply no_edit_Message_create
    | apply no_edit_save | apply no_edit_Conversation_find
    | apply no_edit_Message_find | apply no_edit_where
    | apply no_edit_Conversation_delete | apply no_edit_Message_delete
    | apply no_edit_integer_key | apply no_edit_paginate | apply no_edit_validate
    | apply no_edit_get_store | apply no_edit_preload
    | apply follows_bind; [apply _| |intros ?]
    | apply follows_try_catch; [apply _| |intros ?]
    | match goal with
      | |- follows _ (match ?x with _ => _ end) => destruct x
      | |- follows _ (let '(_, _) := ?x in _) => destruct x
      | |- follows _ (if ?x then _ else _) => destruct x
      end ].

Lemma no_edit_clear_each l : follows edits_no_message (clear_each l).
Proof. induction l as [|conv rest IH]; simpl; edit_nothing. exact IH. Qed.

Lemma operations_edit_no_message op ctx :
  follows edits_no_message (operation op ctx).
Proof.
  destruct op; simpl;
    unfold sendQuestion, sendQuestion_try, sendQuestion_catch,
      resolve_conversation, record_turn, ask_chatbot,
      getAllConversations, getAllConversations_try,
      getConversationMessages, getConversationMessages_try,
      Conversation_first_with_lastMessage,
      deleteConversation, deleteConversation_try,
      deleteMessage, deleteMessage_try, failure;
    edit_nothing.
  apply no_edit_clear_each.
Qed.

(** X20.  No handler edits a stored message, and none changes the session
    or the creation time of a conversation.  After any sequence of
    requests through the routes, whatever fails on the way, a stored
    message is one that was stored at the start, with its sender, text and
    timestamp, or one inserted since under a new id; and a stored
    conversation has the id, session id and creation time of one stored at
    the start, or was inserted since under a new id. *)
Theorem stored_messages_are_never_edited E reqs s :
  let s' := serve_all E reqs s in
  (∀ m, m ∈ messages s' →
        m ∈ messages s ∨ (next_message_id s ≤ Message.id m)%nat) ∧
  (∀ c', c' ∈ conversations s' →
         (∃ c, c ∈ conversations s ∧ same_conversation c c') ∨
         (next_conversation_id s ≤ Conversation.id c')%nat).
Proof.
  intros s'.
  assert (edits_no_message s s') as (_ & _ & Hm & Hc); [|by split].
  unfold s'. apply (serve_all_invariant (edits_no_message s)); [|reflexivity].
  intros op ctx E' s1 H1.
  destruct (operation op ctx E' s1) as [s2 r] eqn:Hrun. simpl.
  etrans; [exact H1|]. by eapply operations_edit_no_message.
Qed.

(** ** Primary ids are not handed out twice *)

(** X21.  Primary ids are not handed out twice.  An id below a table's
    sequence that names no row (its row was deleted, or never committed)
    names no row after any sequence of requests through the routes,
    whatever fails on the way: a reference a client kept to a deleted
    conversation or message never comes to name another one. *)
Theorem retired_ids_stay_retired E reqs s i :
  (retired_conversation_id i s →
   retired_conversation_id i (serve_all E reqs s)) ∧
  (retired_message_id i s → retired_message_id i (serve_all E reqs s)).
Proof.
  split; intros Hs.
  - revert Hs. apply serve_all_invariant. clear.
    intros op ctx E s [Hlt Hnot].
    destruct (operation op ctx E s) as [s' r] eqn:Hrun. simpl.
    destruct (operations_edit_no_message op ctx E s s' r Hrun)
      as (Hn & _ & _ & Hc).
    split; [lia|]. intros Hin. apply list_elem_of_fmap in Hin as (c' & -> & Hc').
    destruct (Hc c' Hc') as [(c & Hin & He & _)|Hnew]; [|lia].
    apply Hnot. rewrite <- He. by apply list_elem_of_fmap_2.
  - revert Hs. apply serve_all_invariant. clear.
    intros op ctx E s [Hlt Hnot].
    destruct (operation op ctx E s) as [s' r] eqn:Hrun. simpl.
    destruct (operations_edit_no_message op ctx E s s' r Hrun)
      as (_ & Hn & Hm & _).
    split; [lia|]. intros Hin. apply list_elem_of_fmap in Hin as (m & -> & Hm').
    destruct (Hm m Hm') as [Hold|Hnew]; [|lia].
    apply Hnot. by apply list_elem_of_fmap_2.
Qed.

(** Conversation 1 of [demo_store] is deleted, then a new question is
    asked: the conversation it opens is not given id 1. *)
Lemma retired_ids_stay_retired_witness :
  retired_conversation_id 1
    (serve_all demo_env
       [mkRequest POST ["questions"] no_query {[ "question" := JStr "ping" ]}]
       (serve demo_env demo_store
          (mkRequest DELETE ["conversation"; "1"] no_query ∅))).
Proof.
  apply (proj1 (retired_ids_stay_retired demo_env _ _ 1)).
  split; vm_compute; [lia|]. apply not_elem_of_nil.
Defined.

(** ** The database down *)

(** X22.  With every storage statement failing, no handler masks the
    outage as a 404, an empty page or an answer: each answers 500 with its
    own fixed message, except that [sendQuestion] still refuses an invalid
    body with 400 before it touches storage; and neither table nor the
    journal of writes changes. *)
Theorem database_down_answers_500 E detail op ctx s :
  (∀ t, env_fault E t = Some detail) →
  ∃ s' resp,
    operation op ctx E s = (s', Ok resp) ∧
    conversations s' = conversations s ∧
    messages s' = messages s ∧
    journal s' = journal s ∧
    ((∃ detail', resp = mkResponse 500 (FailureBody (generic_message op) detail')) ∨
     (op = OpSendQuestion ∧ ∃ errors, resp = mkResponse 400 (ErrorsBody errors))).
Proof.
  intros HE.
  assert (∀ s, storage E s = (set_tick (S (tick s)) s, Throw (Error detail)))
    as Hdown by (intros s0; apply storage_fault, HE).
  destruct op; simpl.
  - unfold sendQuestion, sendQuestion_try, try_catch.
    destruct (request_validate ctx E s) as [s0 [payload|e]] eqn:Hv;
      pose proof (request_validate_pure _ _ _ _ _ Hv) as ->.
    + erewrite bind_ok; [|exact Hv].
      unfold resolve_conversation.
      destruct (provided (v_sessionId payload)) as [sid|].
      * erewrite bind_throw.
        2:{ erewrite bind_throw; [reflexivity|].
            unfold Conversation_findBy_session_id.
            erewrite bind_throw; [reflexivity|apply Hdown]. }
        eexists _, _. split; [reflexivity|]. simpl. repeat split; eauto.
      * erewrite bind_throw.
        2:{ erewrite bind_ok; [|apply uuidv4_run].
            erewrite bind_throw; [reflexivity|].
            unfold Conversation_create.
            erewrite bind_throw; [reflexivity|apply Hdown]. }
        eexists _, _. split; [reflexivity|]. simpl. repeat split; eauto.
    + erewrite bind_throw; [|exact Hv].
      unfold request_validate in Hv.
      destruct (validate_question _), (validate_sessionId _);
        m_unfold; try discriminate Hv; injection Hv as <-;
        (eexists _, _; split; [reflexivity|]; repeat split; right; eauto).
  - unfold getAllConversations, getAllConversations_try, try_catch.
    erewrite bind_throw; [|apply Conversation_paginate_throws].
    eexists _, _. split; [reflexivity|]. simpl. repeat split; eauto.
  - unfold getConversationMessages, getConversationMessages_try, try_catch.
    erewrite bind_throw; [|destruct (isUUID _); apply Conversation_first_throws].
    eexists _, _. split; [reflexivity|]. simpl. repeat split; eauto.
  - unfold deleteConversation, deleteConversation_try, try_catch.
    erewrite bind_throw.
    2:{ unfold Conversation_find. erewrite bind_throw; [reflexivity|apply Hdown]. }
    eexists _, _. split; [reflexivity|]. simpl. repeat split; eauto.
  - unfold deleteMessage, deleteMessage_try, try_catch.
    erewrite bind_throw.
    2:{ unfold Message_find. erewrite bind_throw; [reflexivity|apply Hdown]. }
    eexists _, _. split; [reflexivity|]. simpl. repeat split; eauto.
Qed.

(** The listing of [demo_store] with the database unreachable. *)
Lemma database_down_answers_500_witness :
  ∃ s' detail,
    getAllConversations (mkContext ∅ no_query ∅) failing_env demo_store
    = (s', Ok (mkResponse 500
                 (FailureBody "Failed to retrieve conversations." detail))) ∧
    conversations s' = conversations demo_store.
Proof.
  destruct (database_down_answers_500 failing_env db_down OpGetAllConversations
              (mkContext ∅ no_query ∅) demo_store)
    as (s' & resp & Hrun & Hc & _ & _ & [(d & ->)|(Hop & _)]).
  - intros t. reflexivity.
  - exists s', d. split; [exact Hrun|exact Hc].
  - discriminate Hop.
Defined.

(** ** The UUID pattern *)

Lemma hex_run_spec n k s :
  hex_run n k s = true ↔
  ∃ a rest, s = String.append a rest ∧ hex_group n a ∧ k rest = true.
Proof.
  revert s. induction n as [|n IH]; intros s; simpl.
  - split.
    + intros Hk. by exists EmptyString, s.
    + intros (a & rest & -> & [Hlen _] & Hk). by destruct a.
  - destruct s as [|c s]; simpl.
    + split; [done|]. intros (a & rest & He & [Hlen _] & _). by destruct a.
    + rewrite andb_true_iff, IH. split.
      * intros (Hc & a & rest & -> & [Hlen Hhex] & Hk).
        exists (String c a), rest. split; [done|]. split; [|done].
        split; simpl; [by rewrite Hlen|by rewrite Hc, Hhex].
      * intros (a & rest & He & [Hlen Hhex] & Hk).
        destruct a as [|c' a]; [done|]. simpl in *.
        injection He as <- ->. apply andb_true_iff in Hhex as [Hc Hhex].
        split; [done|]. exists a, rest. split; [done|]. split; [|done].
        split; [lia|done].
Qed.

Lemma dash_spec k s :
  dash k s = true ↔ ∃ rest, s = String "-" rest ∧ k rest = true.
Proof.
  destruct s as [|c s]; simpl.
  - split; [done|]. by intros (rest & He & _).
  - rewrite andb_true_iff. split.
    + intros [Hc Hk]. apply Ascii.eqb_eq in Hc as ->. by exists s.
    + intros (rest & [= -> ->] & Hk). by rewrite Ascii.eqb_refl.
Qed.

Lemma at_end_spec s : at_end s = true ↔ s = EmptyString.
Proof. by destruct s. Qed.

Lemma append_nil_r s : String.append s EmptyString = s.
Proof.
  induction s as [|c s IH]; [done|].
  change (String c (String.append s EmptyString) = String c s). by rewrite IH.
Qed.

(** X23.  What the lookup takes for a session id (the pattern of line
    292): exactly the strings made of five groups of 8, 4, 4, 4 and 12
    hexadecimal digits of either case, joined by single dashes, with
    nothing before or after; no version or variant digit is checked. *)
Theorem isUUID_is_the_five_group_pattern s :
  isUUID s = true ↔
  ∃ a b c d e,
    s = String.append a (String "-" (String.append b (String "-"
          (String.append c (String "-" (String.append d (String "-" e))))))) ∧
    hex_group 8 a ∧ hex_group 4 b ∧ hex_group 4 c ∧ hex_group 4 d ∧
    hex_group 12 e.
Proof.
  unfold isUUID. rewrite hex_run_spec. split.
  - intros (a & r1 & -> & Ha & H1).
    apply dash_spec in H1 as (r1' & -> & H1).
    apply hex_run_spec in H1 as (b & r2 & -> & Hb & H2).
    apply dash_spec in H2 as (r2' & -> & H2).
    apply hex_run_spec in H2 as (c & r3 & -> & Hc & H3).
    apply dash_spec in H3 as (r3' & -> & H3).
    apply hex_run_spec in H3 as (d & r4 & -> & Hd & H4).
    apply dash_spec in H4 as (r4' & -> & H4).
    apply hex_run_spec in H4 as (e & r5 & -> & He & H5).
    apply at_end_spec in H5 as ->.
    exists a, b, c, d, e. split; [|done].
    by rewrite append_nil_r.
  - intros (a & b & c & d & e & -> & Ha & Hb & Hc & Hd & He).
    exists a. eexists. split; [reflexivity|]. split; [done|].
    apply dash_spec. eexists. split; [reflexivity|].
    apply hex_run_spec. exists b. eexists. split; [reflexivity|]. split; [done|].
    apply dash_spec. eexists. split; [reflexivity|].
    apply hex_run_spec. exists c. eexists. split; [reflexivity|]. split; [done|].
    apply dash_spec. eexists. split; [reflexivity|].
    apply hex_run_spec. exists d. eexists. split; [reflexivity|]. split; [done|].
    apply dash_spec. eexists. split; [reflexivity|].
    apply hex_run_spec. exists e, EmptyString. split; [|done].
    by rewrite append_nil_r.
Qed.

(** ** The cached answer follows the message it refers to *)



Section Coherence.
Variable E : Env.


Lemma hoare_throw {A} (I P : Store → Prop) (Q : A → Store → Prop) e :
  (∀ s, P s → I s) → hoare E I P (throw e) Q.
Proof. intros H s s' r Hp [= <- <-]. auto. Qed.




(** An ORM call run on a symbolic store, split by how it can end. *)
Ltac hoare_call :=
  intros ? ? ? ?;
  unfold Conversation_findBy_session_id, Conversation_create, Message_create,
    Conversation_save, Conversation_find, Message_find,
    Conversation_where_messages_id, Conversation_delete, Message_delete,
    Conversation_first_with_lastMessage, Conversation_paginate, integer_key,
    preload_lastMessage, uuidv4, axios_post, storage;
  m_unfold; simpl;
  repeat match goal with
         | |- context [match ?x with _ => _ end] =>
             lazymatch x with
             | (_, _) => fail
             | context [match _ with _ => _ end] => fail
             | _ => destruct x eqn:?; simpl
             end
         end;
  intros [= <- <-]; simpl.


Lemma coherent_storage : keeps_coherent E storage.
Proof. hoare_call; done. Qed.


Lemma coherent_axios_post url sid q : keeps_coherent E (axios_post url sid q).
Proof. hoare_call; done. Qed.


Lemma coherent_integer_key key : keeps_coherent E (integer_key key).
Proof. hoare_call; done. Qed.



















End Coherence.




(** ** Unknown ids *)

Lemma find_no_key {A} (key : A → nat) (l : list A) z :
  z ∉ (Z.of_nat ∘ key <$> l) → find (λ r, Z.eqb (Z.of_nat (key r)) z) l = None.
Proof.
  induction l as [|r l IH]; [done|]. rewrite fmap_cons, not_elem_of_cons.
  intros [Hne Hl]. simpl.
  destruct (Z.eqb_spec (Z.of_nat (key r)) z); [by destruct Hne|auto].
Qed.

Lemma integer_key_in_range E s k z :
  parse_int k = Some z → in_int4 z = true →
  integer_key (Some k) E s = (s, Ok z).
Proof. intros Hp Hr. unfold integer_key. by rewrite Hp, Hr. Qed.

Lemma integer_key_out_of_range E s k z :
  parse_int k = Some z → in_int4 z = false →
  integer_key (Some k) E s
  = (s, Throw (Error "value is out of range for type integer")).
Proof. intros Hp Hr. unfold integer_key. by rewrite Hp, Hr. Qed.

Lemma deleteConversation_no_key E s ctx k z :
  fault_free E → params ctx !! "id" = Some k →
  parse_int k = Some z → in_int4 z = true →
  z ∉ (Z.of_nat ∘ Conversation.id <$> conversations s) →
  deleteConversation ctx E s
  = (set_tick (S (tick s)) s,
     Ok (mkResponse 404 (MessageBody "Conversation not found."))).
Proof.
  intros HE Hk Hparse Hrange Hz.
  unfold deleteConversation, deleteConversation_try, try_catch. rewrite Hk.
  erewrite bind_ok.
  2:{ unfold Conversation_find.
      erewrite bind_ok; [|by apply storage_run].
      erewrite bind_ok; [|by apply integer_key_in_range]. m_unfold. simpl.
      unfold has_key. rewrite (find_no_key Conversation.id _ z Hz). reflexivity. }
  reflexivity.
Qed.

Lemma deleteMessage_no_key E s ctx k z :
  fault_free E → params ctx !! "id" = Some k →
  parse_int k = Some z → in_int4 z = true →
  z ∉ (Z.of_nat ∘ Message.id <$> messages s) →
  deleteMessage ctx E s
  = (set_tick (S (tick s)) s,
     Ok (mkResponse 404 (MessageBody "Message not found."))).
Proof.
  intros HE Hk Hparse Hrange Hz.
  unfold deleteMessage, deleteMessage_try, try_catch. rewrite Hk.
  erewrite bind_ok.
  2:{ unfold Message_find.
      erewrite bind_ok; [|by apply storage_run].
      erewrite bind_ok; [|by apply integer_key_in_range]. m_unfold. simpl.
      unfold message_has_key. rewrite (find_no_key Message.id _ z Hz).
      reflexivity. }
  reflexivity.
Qed.

Lemma not_key_of_absent {A} (key : A → nat) (l : list A) i :
  i ∉ key <$> l → Z.of_nat i ∉ (Z.of_nat ∘ key <$> l).
Proof.
  intros Hi Hz. apply Hi. apply list_elem_of_fmap in Hz as (r & He & Hr).
  simpl in He. apply Nat2Z.inj in He. subst i. by apply list_elem_of_fmap_2.
Qed.

Lemma deleteConversation_absent E s ctx k i :
  fault_free E → params ctx !! "id" = Some k → parse_nat k = Some i →
  i ∉ Conversation.id <$> conversations s →
  deleteConversation ctx E s
  = (set_tick (S (tick s)) s,
     Ok (mkResponse 404 (MessageBody "Conversation not found."))).
Proof.
  intros HE Hk Hparse Hi. destruct (parse_nat_int _ _ Hparse) as [Hp Hr].
  eapply deleteConversation_no_key; [done|done|exact Hp|exact Hr|].
  by apply not_key_of_absent.
Qed.

Lemma deleteMessage_absent E s ctx k i :
  fault_free E → params ctx !! "id" = Some k → parse_nat k = Some i →
  i ∉ Message.id <$> messages s →
  deleteMessage ctx E s
  = (set_tick (S (tick s)) s,
     Ok (mkResponse 404 (MessageBody "Message not found."))).
Proof.
  intros HE Hk Hparse Hi. destruct (parse_nat_int _ _ Hparse) as [Hp Hr].
  eapply deleteMessage_no_key; [done|done|exact Hp|exact Hr|].
  by apply not_key_of_absent.
Qed.

(** X10.  Asked to delete under an id that PostgreSQL reads as an
    integer [z] (a decimal numeral, signed or not, blanks around it):
    when [z] is in the range of the 32-bit [id] column and names no row,
    each deletion answers 404 with its own message after one read (so
    does a negative id, which names no row); when [z] is out of that
    range, the database refuses the comparison and each deletion answers
    500.  Either way nothing changes but logical time. *)
Theorem deleting_unknown_id_is_not_found E s ctx k z :
  fault_free E →
  params ctx !! "id" = Some k →
  parse_int k = Some z →
  (in_int4 z = true →
   (z ∉ (Z.of_nat ∘ Conversation.id <$> conversations s) →
    ∃ s', deleteConversation ctx E s
          = (s', Ok (mkResponse 404 (MessageBody "Conversation not found."))) ∧
          same_tables s s') ∧
   (z ∉ (Z.of_nat ∘ Message.id <$> messages s) →
    ∃ s', deleteMessage ctx E s
          = (s', Ok (mkResponse 404 (MessageBody "Message not found."))) ∧
          same_tables s s')) ∧
  (in_int4 z = false →
   ∃ s',
     same_tables s s' ∧
     deleteConversation ctx E s
     = (s', Ok (mkResponse 500
                  (FailureBody "Failed to delete conversation."
                     "value is out of range for type integer"))) ∧
     deleteMessage ctx E s
     = (s', Ok (mkResponse 500
                  (FailureBody "Failed to delete message."
                     "value is out of range for type integer")))).
Proof.
  intros HE Hk Hparse. split.
  - intros Hrange. split; intros Hz; eexists; split.
    + by eapply deleteConversation_no_key.
    + by repeat split.
    + by eapply deleteMessage_no_key.
    + by repeat split.
  - intros Hrange. exists (set_tick (S (tick s)) s).
    split; [by repeat split|]. split.
    + unfold deleteConversation, deleteConversation_try, try_catch. rewrite Hk.
      erewrite bind_throw.
      2:{ unfold Conversation_find.
          erewrite bind_ok; [|by apply storage_run].
          erewrite bind_throw; [|by eapply integer_key_out_of_range].
          reflexivity. }
      reflexivity.
    + unfold deleteMessage, deleteMessage_try, try_catch. rewrite Hk.
      erewrite bind_throw.
      2:{ unfold Message_find.
          erewrite bind_ok; [|by apply storage_run].
          erewrite bind_throw; [|by eapply integer_key_out_of_range].
          reflexivity. }
      reflexivity.
Qed.

(** Id 7 names neither a conversation nor a message of [demo_store]. *)
Lemma deleting_unknown_id_is_not_found_witness :
  (deleteConversation (with_id "7") demo_env demo_store).2
  = Ok (mkResponse 404 (MessageBody "Conversation not found.")) ∧
  (deleteMessage (with_id "7") demo_env demo_store).2
  = Ok (mkResponse 404 (MessageBody "Message not found.")).
Proof.
  destruct (deleting_unknown_id_is_not_found demo_env demo_store (with_id "7")
              "7" 7%Z)
    as [Hfound _].
  - intros t. reflexivity.
  - vm_compute. reflexivity.
  - reflexivity.
  - destruct (Hfound eq_refl) as [Hc Hm].
    destruct Hc as (s1 & -> & _).
    { vm_compute. intros H. repeat (apply elem_of_cons in H as [H|H]; [discriminate H|]).
      by apply elem_of_nil in H. }
    destruct Hm as (s2 & -> & _).
    { vm_compute. intros H. repeat (apply elem_of_cons in H as [H|H]; [discriminate H|]).
      by apply elem_of_nil in H. }
    split; reflexivity.
Defined.

(** ** What was deleted is gone *)

(** X16.  A conversation deleted with 204 is gone: deleting it again
    answers 404.  Its messages are not deleted with it. *)
Theorem deleted_conversation_is_gone E s ctx k c :
  fault_free E → store_wf s →
  params ctx !! "id" = Some k →
  parse_nat k = Some (Conversation.id c) →
  c ∈ conversations s →
  ∃ s1,
    deleteConversation ctx E s = (s1, Ok (mkResponse 204 NoBody)) ∧
    messages s1 = messages s ∧
    (Conversation.id c ∉ Conversation.id <$> conversations s1) ∧
    (deleteConversation ctx E s1).2
    = Ok (mkResponse 404 (MessageBody "Conversation not found.")).
Proof.
  intros HE Hwf Hk Hparse Hin.
  pose proof (wf_conversation_ids _ Hwf) as Hnd.
  assert (deleteConversation ctx E s
          = (mkStore
               (filter (λ r, has_id (Conversation.id c) r = false) (conversations s))
               (messages s) (next_conversation_id s) (next_message_id s)
               (S (S (tick s))) (issued s)
               (journal s ++ [DeleteConversation (Conversation.id c)]),
             Ok (mkResponse 204 NoBody))) as Hrun.
  { unfold deleteConversation, deleteConversation_try, try_catch. rewrite Hk.
    erewrite bind_ok.
    2:{ unfold Conversation_find.
        erewrite bind_ok; [|by apply storage_run].
        erewrite bind_ok; [|by apply integer_key_run]. m_unfold. simpl.
        rewrite find_has_key, (find_has_id _ c Hnd Hin). reflexivity. }
    unfold Conversation_delete.
    erewrite bind_ok.
    2:{ erewrite bind_ok; [|by apply storage_run]. m_unfold. reflexivity. }
    reflexivity. }
  eexists. split; [exact Hrun|].
  set (s1 := mkStore _ _ _ _ _ _ _).
  assert (Conversation.id c ∉ Conversation.id <$> conversations s1) as Hgone.
  { intros Hi. apply list_elem_of_fmap in Hi as (r & He & Hr).
    apply list_elem_of_filter in Hr as [Hne _].
    unfold has_id in Hne. rewrite <- He, Nat.eqb_refl in Hne. done. }
  split; [done|]. split; [done|].
  by erewrite deleteConversation_absent.
Qed.

(** Conversation 1 of [demo_store], deleted twice. *)
Lemma deleted_conversation_is_gone_witness :
  ∃ s1,
    deleteConversation (with_id "1") demo_env demo_store
    = (s1, Ok (mkResponse 204 NoBody)) ∧
    (deleteConversation (with_id "1") demo_env s1).2
    = Ok (mkResponse 404 (MessageBody "Conversation not found.")).
Proof.
  destruct (deleted_conversation_is_gone demo_env demo_store (with_id "1") "1"
              demo_conversation)
    as (s1 & Hrun & _ & _ & Hagain).
  - intros t. reflexivity.
  - apply store_wfb_sound. vm_compute. reflexivity.
  - reflexivity.
  - reflexivity.
  - left.
  - exists s1. split; [exact Hrun|exact Hagain].
Defined.

(** X17.  A message deleted with 204 is gone: no row has its id, no
    conversation refers to it, and deleting it again answers 404. *)
Theorem deleted_message_is_gone E s ctx k message :
  fault_free E → store_wf s →
  params ctx !! "id" = Some k →
  parse_nat k = Some (Message.id message) →
  message ∈ messages s →
  ∃ s1,
    deleteMessage ctx E s = (s1, Ok (mkResponse 204 NoBody)) ∧
    (Message.id message ∉ Message.id <$> messages s1) ∧
    (∀ c, c ∈ conversations s1 → refers_to (Message.id message) c = false) ∧
    (deleteMessage ctx E s1).2
    = Ok (mkResponse 404 (MessageBody "Message not found.")).
Proof.
  intros HE Hwf Hk Hparse Hin.
  pose proof (wf_message_ids _ Hwf) as Hnd.
  pose proof (wf_conversation_ids _ Hwf) as Hndc.
  assert (∃ s1,
    deleteMessage ctx E s = (s1, Ok (mkResponse 204 NoBody)) ∧
    messages s1
    = filter (λ r, message_has_id (Message.id message) r = false) (messages s) ∧
    Forall2 (cleared_if_referring (Message.id message))
      (conversations s) (conversations s1)) as (s1 & Hrun & Hms & Hrel).
  { destruct s as [cs ms nc nm t iss jn]. simpl in *.
    unfold deleteMessage, deleteMessage_try, try_catch. rewrite Hk.
    erewrite bind_ok.
    2:{ unfold Message_find.
        erewrite bind_ok; [|by apply storage_run].
        erewrite bind_ok; [|by apply integer_key_run]. m_unfold. simpl.
        rewrite find_message_has_key. unfold message_has_id.
        rewrite (find_key Message.id _ message Hnd Hin). reflexivity. }
    cbv beta iota.
    set (mid := Message.id message) in *.
    set (l := filter (λ c, refers_to mid c = true) cs).
    erewrite bind_ok.
    2:{ unfold Conversation_where_messages_id.
        erewrite bind_ok; [|by apply storage_run]. m_unfold. reflexivity. }
    destruct (clear_each_run E l HE (mkStore cs ms nc nm (S (S t)) iss jn))
      as (cs' & Hloop & Hrel).
    simpl in Hloop, Hrel.
    erewrite bind_ok; [|exact Hloop].
    assert (Forall2 (cleared_if_referring mid) cs cs') as Hrel'.
    { eapply Forall2_impl_elem; [exact Hrel|].
      intros r r' Hr (H1 & H2 & H3 & H4). do 3 (split; [done|]).
      pose proof (referring_ids mid _ r Hndc Hr) as Hiff. fold l in Hiff.
      case_bool_decide as Hd.
      - by rewrite (proj1 Hiff Hd).
      - destruct (refers_to mid r); [|done]. exfalso. by apply Hd, Hiff. }
    unfold Message_delete.
    erewrite bind_ok.
    2:{ erewrite bind_ok; [|by apply storage_run]. m_unfold. reflexivity. }
    m_unfold. unfold set_tables, set_tick.
    cbn [conversations messages journal tick issued next_conversation_id
         next_message_id].
    fold mid. rewrite (cleared_rows_do_not_refer mid _ _ Hrel').
    eexists. split; [reflexivity|]. simpl. split; done. }
  assert (Message.id message ∉ Message.id <$> messages s1) as Hgone.
  { rewrite Hms. intros Hi. apply list_elem_of_fmap in Hi as (r & He & Hr).
    apply list_elem_of_filter in Hr as [Hne _].
    unfold message_has_id in Hne. rewrite <- He, Nat.eqb_refl in Hne. done. }
  exists s1. split; [exact Hrun|]. split; [exact Hgone|]. split.
  - intros c Hc. apply list_elem_of_lookup in Hc as [i Hi].
    destruct (Forall2_lookup_r _ _ _ _ _ Hrel Hi) as (c0 & Hi0 & _ & _ & _ & H4).
    destruct (refers_to (Message.id message) c0) eqn:Hrefers.
    + destruct H4 as [Hnone _]. unfold refers_to. by rewrite Hnone.
    + by rewrite H4.
  - by erewrite deleteMessage_absent.
Qed.

(** The bot's answer of [demo_store], deleted twice. *)
Lemma deleted_message_is_gone_witness :
  ∃ s1,
    deleteMessage (with_id "2") demo_env demo_store
    = (s1, Ok (mkResponse 204 NoBody)) ∧
    (deleteMessage (with_id "2") demo_env s1).2
    = Ok (mkResponse 404 (MessageBody "Message not found.")).
Proof.
  destruct (deleted_message_is_gone demo_env demo_store (with_id "2") "2"
              demo_reply)
    as (s1 & Hrun & _ & _ & Hagain).
  - intros t. reflexivity.
  - apply store_wfb_sound. vm_compute. reflexivity.
  - reflexivity.
  - reflexivity.
  - right. left.
  - exists s1. split; [exact Hrun|exact Hagain].
Defined.
